(** * The Infura credit rate limiter (src/utils/rateLimiter, class InfuraRateLimiter)

    A shallow embedding of the rate limiter and of its drain loop, and the
    properties of its admission control, retry policy and batch sizing.

    The object's own fields form the record [limiter]; its synchronous
    methods are computations of a small state monad over that record.  The
    asynchronous part ([processQueue], the timers, the promises) is a
    transition system over [world]: JavaScript runs one callback at a time, so
    everything between two [await]s is one atomic step, and a step is caused
    by one event of the event loop (a call of [queueRequest], a timer firing,
    the awaited promise settling). *)

From Stdlib Require Import ZArith QArith Qround Lia Floats.
From stdpp Require Import gmap strings list.

Local Open Scope string_scope.
Local Open Scope list_scope.
Local Open Scope Z_scope.

Module RateLimiter.

(** ** Data *)

(** Values that cross the limiter unchanged: results of operations and the
    [code] property of an error. *)
Inductive jsval :=
| JUndefined
| JNum (n : Z)
| JStr (s : string).

(** The error a promise is rejected with: an object, as far as the limiter
    looks at it ([error.code]). *)
Record error := { code : jsval; message : string }.

(** How the promise returned by a call of [executeFn] settles. *)
Inductive outcome :=
| Fulfilled (v : jsval)
| Rejected (e : error).

(** An entry of [this.queue].  [executeFn k] is the way the promise of the
    call number [k] (counted from 0) settles: the loop calls [executeFn] once
    for every value of [retries].  [promise] stands for the [resolve] and
    [reject] functions of the promise that [queueRequest] returned. *)
Record request := {
  method : string;
  executeFn : nat -> outcome;
  promise : nat;
  retries : nat;
  maxRetries : nat }.

Record statistics := {
  totalRequests : Z;
  throttledRequests : Z;
  failedRequests : Z;
  dailyCreditsUsed : Z }.

Record limiter := {
  secondlyCredits : Z;
  dailyCredits : Z;
  lastResetSecond : Z;
  lastResetDay : string;
  queue : list request;
  processing : bool;
  stats : statistics }.

(** The result of [canProceed]. *)
Record verdict := { allowed : bool; reason : option string }.

(** The object returned by [getStats]. *)
Record snapshot := {
  snapTotalRequests : Z;
  snapThrottledRequests : Z;
  snapFailedRequests : Z;
  snapDailyCreditsUsed : Z;
  currentSecondCredits : Z;
  currentDayCredits : Z;
  remainingDailyCredits : Z;
  queueLength : Z }.

(** ** Constants of the constructor *)

Definition MAX_CREDITS_PER_SECOND : Z := 500.
Definition MAX_CREDITS_PER_DAY : Z := 3000000.
Definition SAFE_CREDITS_PER_SECOND : Z := 400.

(** [CREDIT_COSTS] at its declared type [{ [key: string]: number }]: a map
    from method names to numbers, with the six entries of the constructor
    (the properties a JavaScript object inherits are not part of that type). *)
Definition CREDIT_COSTS : gmap string Z :=
  list_to_map
    [ ("eth_sendRawTransaction", 20);
      ("eth_call", 15);
      ("eth_getTransactionReceipt", 15);
      ("eth_getBalance", 10);
      ("eth_getBlockByNumber", 10);
      ("eth_gasPrice", 5) ].

(** ** Field updates *)

Definition set_secondlyCredits (v : Z) (l : limiter) : limiter :=
  {| secondlyCredits := v; dailyCredits := dailyCredits l;
     lastResetSecond := lastResetSecond l; lastResetDay := lastResetDay l;
     queue := queue l; processing := processing l; stats := stats l |}.

Definition set_dailyCredits (v : Z) (l : limiter) : limiter :=
  {| secondlyCredits := secondlyCredits l; dailyCredits := v;
     lastResetSecond := lastResetSecond l; lastResetDay := lastResetDay l;
     queue := queue l; processing := processing l; stats := stats l |}.

Definition set_lastResetSecond (v : Z) (l : limiter) : limiter :=
  {| secondlyCredits := secondlyCredits l; dailyCredits := dailyCredits l;
     lastResetSecond := v; lastResetDay := lastResetDay l;
     queue := queue l; processing := processing l; stats := stats l |}.

Definition set_lastResetDay (v : string) (l : limiter) : limiter :=
  {| secondlyCredits := secondlyCredits l; dailyCredits := dailyCredits l;
     lastResetSecond := lastResetSecond l; lastResetDay := v;
     queue := queue l; processing := processing l; stats := stats l |}.

Definition set_queue (v : list request) (l : limiter) : limiter :=
  {| secondlyCredits := secondlyCredits l; dailyCredits := dailyCredits l;
     lastResetSecond := lastResetSecond l; lastResetDay := lastResetDay l;
     queue := v; processing := processing l; stats := stats l |}.

Definition set_processing (v : bool) (l : limiter) : limiter :=
  {| secondlyCredits := secondlyCredits l; dailyCredits := dailyCredits l;
     lastResetSecond := lastResetSecond l; lastResetDay := lastResetDay l;
     queue := queue l; processing := v; stats := stats l |}.

Definition set_stats (v : statistics) (l : limiter) : limiter :=
  {| secondlyCredits := secondlyCredits l; dailyCredits := dailyCredits l;
     lastResetSecond := lastResetSecond l; lastResetDay := lastResetDay l;
     queue := queue l; processing := processing l; stats := v |}.

Definition set_totalRequests (v : Z) (s : statistics) : statistics :=
  {| totalRequests := v; throttledRequests := throttledRequests s;
     failedRequests := failedRequests s; dailyCreditsUsed := dailyCreditsUsed s |}.

Definition set_throttledRequests (v : Z) (s : statistics) : statistics :=
  {| totalRequests := totalRequests s; throttledRequests := v;
     failedRequests := failedRequests s; dailyCreditsUsed := dailyCreditsUsed s |}.

Definition set_failedRequests (v : Z) (s : statistics) : statistics :=
  {| totalRequests := totalRequests s; throttledRequests := throttledRequests s;
     failedRequests := v; dailyCreditsUsed := dailyCreditsUsed s |}.

Definition set_dailyCreditsUsed (v : Z) (s : statistics) : statistics :=
  {| totalRequests := totalRequests s; throttledRequests := throttledRequests s;
     failedRequests := failedRequests s; dailyCreditsUsed := v |}.

Definition set_retries (v : nat) (r : request) : request :=
  {| method := method r; executeFn := executeFn r; promise := promise r;
     retries := v; maxRetries := maxRetries r |}.

(** ** The synchronous methods, in a state monad over the object *)

Definition M (A : Type) : Type := limiter -> A * limiter.

Definition ret {A} (a : A) : M A := fun l => (a, l).
Definition bind {A B} (c : M A) (k : A -> M B) : M B :=
  fun l => let (a, l') := c l in k a l'.
Definition gets {A} (f : limiter -> A) : M A := fun l => (f l, l).
Definition modify (f : limiter -> limiter) : M unit := fun l => (tt, f l).

Notation "'let*' x := c 'in' k" := (bind c (fun x => k))
  (at level 10, x name, c at level 100, k at level 200).
Notation "c ;; k" := (bind c (fun _ => k))
  (at level 100, k at level 200, right associativity).

(** [this.CREDIT_COSTS[method] || 10]: a missing entry is [undefined], and
    [||] also replaces a zero. *)
Definition getCreditsForMethod (method : string) : M Z :=
  let* entry := gets (fun _ => (CREDIT_COSTS !! method : option Z)) in
  ret match entry with
      | Some credits => if credits =? 0 then 10 else credits
      | None => 10
      end.

Definition canProceed (method : string) : M verdict :=
  let* credits := getCreditsForMethod method in
  let* daily := gets dailyCredits in
  if daily + credits >? MAX_CREDITS_PER_DAY then
    ret {| allowed := false; reason := Some "Daily credit limit exceeded" |}
  else
    let* secondly := gets secondlyCredits in
    if secondly + credits >? SAFE_CREDITS_PER_SECOND then
      ret {| allowed := false; reason := Some "Per-second rate limit" |}
    else
      ret {| allowed := true; reason := None |}.

Definition trackUsage (method : string) : M unit :=
  let* credits := getCreditsForMethod method in
  modify (fun l => set_secondlyCredits (secondlyCredits l + credits) l) ;;
  modify (fun l => set_dailyCredits (dailyCredits l + credits) l) ;;
  modify (fun l =>
    set_stats (set_dailyCreditsUsed (dailyCreditsUsed (stats l) + credits) (stats l)) l) ;;
  modify (fun l =>
    set_stats (set_totalRequests (totalRequests (stats l) + 1) (stats l)) l).

Definition getStats : M snapshot :=
  gets (fun l =>
    {| snapTotalRequests := totalRequests (stats l);
       snapThrottledRequests := throttledRequests (stats l);
       snapFailedRequests := failedRequests (stats l);
       snapDailyCreditsUsed := dailyCreditsUsed (stats l);
       currentSecondCredits := secondlyCredits l;
       currentDayCredits := dailyCredits l;
       remainingDailyCredits := MAX_CREDITS_PER_DAY - dailyCredits l;
       queueLength := Z.of_nat (length (queue l)) |}).

(** [calculateOptimalBatchSize]: the arithmetic is on rationals.  On doubles
    the product [400 * 0.8] is exactly 320 (see [available_credits_double]),
    and the quotient of 320 by an integer is never rounded across an integer,
    so [Math.floor] gives the same result.  A division by zero is [Infinity]
    in JavaScript, and [Math.min(Infinity, 50)] is 50. *)
Definition calculateOptimalBatchSize (creditsPerOperation : Z) : Z :=
  let availableCreditsPerSecond := (inject_Z SAFE_CREDITS_PER_SECOND * 0.8)%Q in
  if creditsPerOperation =? 0 then 50
  else
    let batchSize :=
      Qfloor (availableCreditsPerSecond / inject_Z creditsPerOperation) in
    Z.min batchSize 50.

Record batchConfig := {
  batchSize : Z;
  delayBetweenBatches : Z;
  maxConcurrentBatches : Z }.

Definition getOptimalBatchConfig : batchConfig :=
  {| batchSize := calculateOptimalBatchSize 20;
     delayBetweenBatches := 3000;
     maxConcurrentBatches := 1 |}.

(** ** The event loop *)

(** What the limiter does to the outside, newest first in [log]: calls of
    [executeFn], settlements of the callers' promises, emitted events and
    timers started by [delay].  [SecondReset] and [DayReset] mark the
    overwriting of a counter by a reset timer. *)
Inductive effect :=
| Executed (time : Z) (id : nat) (attempt : nat) (name : string)
| Resolve (id : nat) (v : jsval)
| Reject (id : nat) (e : error)
| Throttled (name : string) (why : option string)
| Retry (name : string) (retry : nat) (backoffMs : Z)
| Warning (s : snapshot)
| Delay (ms : Z)
| SecondReset (time : Z)
| DayReset (time : Z).

(** Where [processQueue] is suspended: not running, at [await
    this.delay(1000)] after a denial, at [await request.executeFn()], or at
    [await this.delay(backoffMs)] with the request it holds. *)
Inductive suspended :=
| NotRunning
| ThrottleDelay (due : Z)
| Executing (r : request)
| BackoffDelay (r : request) (due : Z).

(** The limiter object in its environment: the time in milliseconds since
    the constructor ran, the suspended loop, the number of promises handed
    out, the effects so far, and when the timers are next due ([monitor]
    holds the interval of [startMonitoring] once it was called). *)
Record world := {
  rl : limiter;
  clock : Z;
  loop : suspended;
  nextPromise : nat;
  log : list effect;
  secondDue : Z;
  dayDue : Z;
  monitor : option (Z * Z) }.

Definition upd (f : limiter -> limiter) (w : world) : world :=
  {| rl := f (rl w); clock := clock w; loop := loop w;
     nextPromise := nextPromise w; log := log w; secondDue := secondDue w;
     dayDue := dayDue w; monitor := monitor w |}.

Definition set_clock (v : Z) (w : world) : world :=
  {| rl := rl w; clock := v; loop := loop w;
     nextPromise := nextPromise w; log := log w; secondDue := secondDue w;
     dayDue := dayDue w; monitor := monitor w |}.

Definition set_loop (v : suspended) (w : world) : world :=
  {| rl := rl w; clock := clock w; loop := v;
     nextPromise := nextPromise w; log := log w; secondDue := secondDue w;
     dayDue := dayDue w; monitor := monitor w |}.

Definition set_nextPromise (v : nat) (w : world) : world :=
  {| rl := rl w; clock := clock w; loop := loop w;
     nextPromise := v; log := log w; secondDue := secondDue w;
     dayDue := dayDue w; monitor := monitor w |}.

Definition emit (e : effect) (w : world) : world :=
  {| rl := rl w; clock := clock w; loop := loop w;
     nextPromise := nextPromise w; log := e :: log w; secondDue := secondDue w;
     dayDue := dayDue w; monitor := monitor w |}.

Definition set_secondDue (v : Z) (w : world) : world :=
  {| rl := rl w; clock := clock w; loop := loop w;
     nextPromise := nextPromise w; log := log w; secondDue := v;
     dayDue := dayDue w; monitor := monitor w |}.

Definition set_dayDue (v : Z) (w : world) : world :=
  {| rl := rl w; clock := clock w; loop := loop w;
     nextPromise := nextPromise w; log := log w; secondDue := secondDue w;
     dayDue := v; monitor := monitor w |}.

Definition set_monitor (v : option (Z * Z)) (w : world) : world :=
  {| rl := rl w; clock := clock w; loop := loop w;
     nextPromise := nextPromise w; log := log w; secondDue := secondDue w;
     dayDue := dayDue w; monitor := v |}.

(** Run a method of the object and keep the object it leaves. *)
Definition call {A} (c : M A) (w : world) : A * world :=
  let (a, l) := c (rl w) in (a, upd (fun _ => l) w).

(** [error.code === 429]: strict equality with the number 429. *)
Definition is429 (v : jsval) : bool :=
  match v with
  | JNum n => n =? 429
  | _ => false
  end.

(** [error.code === 429 && request.retries < request.maxRetries] *)
Definition retryable (e : error) (r : request) : bool :=
  is429 (code e) && (retries r <? maxRetries r)%nat.

(** The [while] loop of [processQueue], from its test to its next [await]
    or to its exit.  One pass either leaves the loop (empty queue), or stops
    at [await this.delay(1000)] (head denied), or stops at
    [await request.executeFn()] (head admitted, removed and charged). *)
Definition drain (w : world) : world :=
  match queue (rl w) with
  | [] => set_loop NotRunning (upd (set_processing false) w)
  | request :: rest =>
    let (canProceed, w) := call (canProceed (method request)) w in
    if negb (allowed canProceed) then
      let w := upd (fun l => set_stats
                 (set_throttledRequests (throttledRequests (stats l) + 1) (stats l)) l) w in
      let w := emit (Throttled (method request) (reason canProceed)) w in
      let w := emit (Delay 1000) w in
      set_loop (ThrottleDelay (clock w + 1000)) w
    else
      let w := upd (set_queue rest) w in
      let (_, w) := call (trackUsage (method request)) w in
      let w := emit (Executed (clock w) (promise request) (retries request)
                       (method request)) w in
      set_loop (Executing request) w
  end.

Definition processQueue (w : world) : world :=
  if processing (rl w) || (length (queue (rl w)) =? 0)%nat then w
  else drain (upd (set_processing true) w).

(** [queueRequest]: the new entry goes to the back of the queue. *)
Definition queueRequest (method : string) (executeFn : nat -> outcome)
    (w : world) : world :=
  let entry :=
    {| method := method; executeFn := executeFn; promise := nextPromise w;
       retries := 0; maxRetries := 3 |} in
  let w := set_nextPromise (S (nextPromise w)) w in
  let w := upd (fun l => set_queue (queue l ++ [entry]) l) w in
  processQueue w.

(** The exported wrapper of [queueRequest]. *)
Definition rateLimitedWeb3Call (method : string) (executeFn : nat -> outcome)
    (w : world) : world :=
  queueRequest method executeFn w.

(** The loop resumes after [await request.executeFn()]. *)
Definition settle (request : request) (w : world) : world :=
  match executeFn request (retries request) with
  | Fulfilled result => drain (emit (Resolve (promise request) result) w)
  | Rejected error =>
    if retryable error request then
      let request := set_retries (S (retries request)) request in
      let backoffMs := 2 ^ Z.of_nat (retries request) * 1000 in
      let w := emit (Retry (method request) (retries request) backoffMs) w in
      let w := emit (Delay backoffMs) w in
      set_loop (BackoffDelay request (clock w + backoffMs)) w
    else
      let w := upd (fun l => set_stats
                 (set_failedRequests (failedRequests (stats l) + 1) (stats l)) l) w in
      drain (emit (Reject (promise request) error) w)
  end.

(** The loop resumes after [await this.delay(backoffMs)]. *)
Definition requeue (request : request) (w : world) : world :=
  drain (upd (fun l => set_queue (request :: queue l) l) w).

(** The callback of the one-second interval. *)
Definition secondTick (w : world) : world :=
  let w := upd (set_secondlyCredits 0) w in
  let w := upd (set_lastResetSecond (clock w)) w in
  let w := emit (SecondReset (clock w)) w in
  processQueue w.

(** The callback of the one-minute interval; [currentDay] is
    [new Date().toDateString()]. *)
Definition dayTick (currentDay : string) (w : world) : world :=
  if bool_decide (currentDay <> lastResetDay (rl w)) then
    let w := upd (set_dailyCredits 0) w in
    let w := upd (set_lastResetDay currentDay) w in
    let w := upd (fun l => set_stats (set_dailyCreditsUsed 0 (stats l)) l) w in
    emit (DayReset (clock w)) w
  else w.

(** The callback of the interval of [startMonitoring]. *)
Definition monitorTick (w : world) : world :=
  let (stats, w) := call getStats w in
  if negb (Qle_bool (inject_Z (currentDayCredits stats))
             (inject_Z MAX_CREDITS_PER_DAY * 0.8)%Q)
  then emit (Warning stats) w
  else w.

Inductive event :=
| QueueRequest (method : string) (executeFn : nat -> outcome)
| SecondTimer
| DayTimer (currentDay : string)
| StartMonitoring (intervalMs : Z)
| MonitorTimer
| DelayElapsed
| ExecuteSettled.

(** One callback of the event loop at time [t].  The clock does not run
    backwards, a timer does not fire before it is due, and a promise settles
    only while the loop awaits it; an interval is due again one period after
    its callback ran.  [startMonitoring] is called once. *)
Definition step (w : world) (t : Z) (e : event) : option world :=
  if t <? clock w then None
  else
    let w := set_clock t w in
    match e with
    | QueueRequest method executeFn => Some (queueRequest method executeFn w)
    | SecondTimer =>
      if t <? secondDue w then None
      else Some (set_secondDue (t + 1000) (secondTick w))
    | DayTimer currentDay =>
      if t <? dayDue w then None
      else Some (set_dayDue (t + 60000) (dayTick currentDay w))
    | StartMonitoring intervalMs =>
      match monitor w with
      | None => Some (set_monitor (Some (intervalMs, t + intervalMs)) w)
      | Some _ => None
      end
    | MonitorTimer =>
      match monitor w with
      | Some (intervalMs, due) =>
        if t <? due then None
        else Some (set_monitor (Some (intervalMs, t + intervalMs)) (monitorTick w))
      | None => None
      end
    | DelayElapsed =>
      match loop w with
      | ThrottleDelay due => if t <? due then None else Some (drain w)
      | BackoffDelay request due =>
        if t <? due then None else Some (requeue request w)
      | _ => None
      end
    | ExecuteSettled =>
      match loop w with
      | Executing request => Some (settle request w)
      | _ => None
      end
    end.

Fixpoint run (w : world) (trace : list (Z * event)) : option world :=
  match trace with
  | [] => Some w
  | (t, e) :: rest =>
    match step w t e with
    | Some w' => run w' rest
    | None => None
    end
  end.

(** The state the constructor leaves, on the day [today]. *)
Definition init (today : string) : world :=
  {| rl := {| secondlyCredits := 0; dailyCredits := 0;
              lastResetSecond := 0; lastResetDay := today;
              queue := []; processing := false;
              stats := {| totalRequests := 0; throttledRequests := 0;
                          failedRequests := 0; dailyCreditsUsed := 0 |} |};
     clock := 0; loop := NotRunning; nextPromise := 0; log := [];
     secondDue := 1000; dayDue := 60000; monitor := None |}.

Definition reachable (w : world) : Prop :=
  exists today trace, run (init today) trace = Some w.

(** ** Notions used in the statements *)

(** The cost of a method, as [getCreditsForMethod] reads it from the table. *)
Definition credits_of (name : string) : Z :=
  fst (getCreditsForMethod name (rl (init ""))).

(** The verdict of [canProceed] as a function of the two counters. *)
Definition verdict_of (name : string) (l : limiter) : verdict :=
  if dailyCredits l + credits_of name >? MAX_CREDITS_PER_DAY then
    {| allowed := false; reason := Some "Daily credit limit exceeded" |}
  else if secondlyCredits l + credits_of name >? SAFE_CREDITS_PER_SECOND then
    {| allowed := false; reason := Some "Per-second rate limit" |}
  else {| allowed := true; reason := None |}.


(** The object after [trackUsage]. *)
Definition charged (name : string) (l : limiter) : limiter :=
  {| secondlyCredits := secondlyCredits l + credits_of name;
     dailyCredits := dailyCredits l + credits_of name;
     lastResetSecond := lastResetSecond l; lastResetDay := lastResetDay l;
     queue := queue l; processing := processing l;
     stats := {| totalRequests := totalRequests (stats l) + 1;
                 throttledRequests := throttledRequests (stats l);
                 failedRequests := failedRequests (stats l);
                 dailyCreditsUsed := dailyCreditsUsed (stats l) + credits_of name |} |}.

(** Credits of the operations executed since the per-second counter was
    last reset, and since the daily counter was last reset. *)
Fixpoint second_sum (l : list effect) : Z :=
  match l with
  | [] => 0
  | Executed _ _ _ name :: rest => credits_of name + second_sum rest
  | SecondReset _ :: _ => 0
  | _ :: rest => second_sum rest
  end.

Fixpoint day_sum (l : list effect) : Z :=
  match l with
  | [] => 0
  | Executed _ _ _ name :: rest => credits_of name + day_sum rest
  | DayReset _ :: _ => 0
  | _ :: rest => day_sum rest
  end.


(** The effects that concern the order of execution, oldest first: an
    attempt of a request, the announcement of a retry with its backoff, and
    the settlement of the caller's promise. *)
Inductive mark :=
| Ran (id : nat) (attempt : nat)
| Backoff (retry : nat) (ms : Z)
| Settled (id : nat) (o : outcome).

Definition mark_of (e : effect) : option mark :=
  match e with
  | Executed _ id attempt _ => Some (Ran id attempt)
  | Retry _ retry ms => Some (Backoff retry ms)
  | Resolve id v => Some (Settled id (Fulfilled v))
  | Reject id e => Some (Settled id (Rejected e))
  | _ => None
  end.

Definition marks (l : list effect) : list mark := omap mark_of (rev l).

(** The retry policy read sequentially: what follows the attempt [k] of an
    operation that may be retried [left] more times. *)
Fixpoint rest_plan (f : nat -> outcome) (id k left : nat) : list mark :=
  match f k with
  | Fulfilled v => [Settled id (Fulfilled v)]
  | Rejected e =>
    if is429 (code e) then
      match left with
      | O => [Settled id (Rejected e)]
      | S left' =>
        Backoff (S k) (2 ^ Z.of_nat (S k) * 1000)
          :: Ran id (S k) :: rest_plan f id (S k) left'
      end
    else [Settled id (Rejected e)]
  end.

Definition after_current (r : request) : list mark :=
  rest_plan (executeFn r) (promise r) (retries r) (maxRetries r - retries r).

Definition plan_of (r : request) : list mark :=
  Ran (promise r) (retries r) :: after_current r.

(** What is still to happen for the requests the limiter holds: the one
    the loop is suspended on, then the queue from its head. *)
Definition pending (w : world) : list mark :=
  match loop w with
  | Executing r => after_current r
  | BackoffDelay r _ => plan_of r
  | _ => []
  end ++ flat_map plan_of (queue (rl w)).

(** The entry that [queueRequest] creates for the promise number [id]. *)
Definition new_entry (name : string) (f : nat -> outcome) (id : nat) : request :=
  {| method := name; executeFn := f; promise := id;
     retries := 0; maxRetries := 3 |}.

(** The entries that the calls of [queueRequest] in a trace create, the
    first of them with the promise number [next]. *)
Fixpoint submissions (next : nat) (trace : list (Z * event)) : list request :=
  match trace with
  | [] => []
  | (_, QueueRequest method executeFn) :: rest =>
    new_entry method executeFn next :: submissions (S next) rest
  | _ :: rest => submissions next rest
  end.

(** The loop and the [processing] flag agree, the loop is off only on an
    empty queue and waits for admission only on a non-empty one. *)
Definition shape (w : world) : Prop :=
  match loop w with
  | NotRunning => processing (rl w) = false /\ queue (rl w) = []
  | ThrottleDelay _ => processing (rl w) = true /\ queue (rl w) <> []
  | _ => processing (rl w) = true
  end.

Definition bounds (w : world) : Prop :=
  0 <= secondlyCredits (rl w) <= SAFE_CREDITS_PER_SECOND /\
  0 <= dailyCredits (rl w) <= MAX_CREDITS_PER_DAY.

Definition ledger (w : world) : Prop :=
  second_sum (log w) = secondlyCredits (rl w) /\
  day_sum (log w) = dailyCredits (rl w).

(** The two ways a pass of the loop on a non-empty queue can go, written
    out: the head is denied, or the head is admitted. *)
Definition throttled_world (r : request) (w : world) : world :=
  let w1 := upd (fun l => set_stats
              (set_throttledRequests (throttledRequests (stats l) + 1) (stats l)) l) w in
  set_loop (ThrottleDelay (clock w + 1000))
    (emit (Delay 1000)
       (emit (Throttled (method r) (reason (verdict_of (method r) (rl w)))) w1)).

Definition started_world (r : request) (rest : list request) (w : world) : world :=
  set_loop (Executing r)
    (emit (Executed (clock w) (promise r) (retries r) (method r))
       (upd (fun l => charged (method r) (set_queue rest l)) w)).

Definition Inv (w : world) : Prop := shape w /\ bounds w /\ ledger w.




(** A failure that the loop answers with a retry while retries are left. *)
Definition transient (o : outcome) : bool :=
  match o with
  | Rejected e => is429 (code e)
  | Fulfilled _ => false
  end.

(** ** Traces used as examples *)

(** An operation that is refused once with the code 429 and then succeeds,
    and one that is refused with the code 429 every time. *)
Definition too_many_requests : error :=
  {| code := JNum 429; message := "Too Many Requests" |}.

Definition fails_once : nat -> outcome :=
  fun k => match k with
           | O => Rejected too_many_requests
           | S _ => Fulfilled (JStr "0xa")
           end.

Definition always_refused : nat -> outcome :=
  fun _ => Rejected too_many_requests.

(** Three submissions; the first fails once, waits its backoff of 2000 ms,
    is retried, and the other two follow. *)
Definition three_submissions : list (Z * event) :=
  [ (0, QueueRequest "eth_sendRawTransaction" fails_once);
    (1, QueueRequest "eth_call" (fun _ => Fulfilled (JStr "0xb")));
    (2, QueueRequest "eth_getBalance" (fun _ => Fulfilled (JNum 7)));
    (5, ExecuteSettled);
    (1000, SecondTimer);
    (2000, SecondTimer);
    (2005, DelayElapsed);
    (2010, ExecuteSettled);
    (2020, ExecuteSettled);
    (2030, ExecuteSettled) ].

(** One submission that is refused four times, with the three backoffs. *)
Definition refused_submission : list (Z * event) :=
  [ (0, QueueRequest "eth_sendRawTransaction" always_refused);
    (5, ExecuteSettled);
    (2005, DelayElapsed);
    (2010, ExecuteSettled);
    (6010, DelayElapsed);
    (6015, ExecuteSettled);
    (14015, DelayElapsed);
    (14020, ExecuteSettled) ].

(** The world a trace leads to from the constructor's state. *)
Definition after_trace (trace : list (Z * event)) : world :=
  default (init "") (run (init "Mon Nov 02 2026") trace).

(** The world inside [queueRequest] just before the loop starts its pass:
    used to show a pass on a concrete state. *)
Definition at_loop_head (name : string) (f : nat -> outcome) (w : world) : world :=
  upd (set_processing true)
    (upd (fun l => set_queue (queue l ++ [new_entry name f (nextPromise w)]) l) w).

(** An error that is not a refusal, and a world in which the loop awaits
    the first attempt of an operation that fails with it. *)
Definition reverted : error :=
  {| code := JStr "CALL_EXCEPTION"; message := "execution reverted" |}.

Definition awaiting_revert : world :=
  after_trace [ (0, QueueRequest "eth_call" (fun _ => Rejected reverted)) ].

Definition succeeds : nat -> outcome := fun _ => Fulfilled JUndefined.

(** [n] transactions, one every 4 ms from [t0] on, each settled 2 ms after
    it was sent. *)
Fixpoint burst (t0 : Z) (n : nat) : list (Z * event) :=
  match n with
  | O => []
  | S n' =>
    (t0, QueueRequest "eth_sendRawTransaction" succeeds)
      :: (t0 + 2, ExecuteSettled) :: burst (t0 + 4) n'
  end.

(** The pass of the loop on a call that arrives when twenty transactions
    have used up the budget of the current second. *)
Definition budget_spent : world :=
  at_loop_head "eth_call" succeeds (after_trace (burst 0 20)).



(** ** Notions used in the further properties *)

(** How many effects of a kind the log holds. *)
Fixpoint tally (f : effect -> bool) (l : list effect) : Z :=
  match l with
  | [] => 0
  | e :: rest => (if f e then 1 else 0) + tally f rest
  end.

Definition is_executed (e : effect) : bool :=
  match e with Executed _ _ _ _ => true | _ => false end.

Definition is_throttled (e : effect) : bool :=
  match e with Throttled _ _ => true | _ => false end.

Definition is_reject (e : effect) : bool :=
  match e with Reject _ _ => true | _ => false end.

(** The statistics agree with the daily counter and with the log. *)
Definition counts (w : world) : Prop :=
  dailyCreditsUsed (stats (rl w)) = dailyCredits (rl w)
  /\ totalRequests (stats (rl w)) = tally is_executed (log w)
  /\ throttledRequests (stats (rl w)) = tally is_throttled (log w)
  /\ failedRequests (stats (rl w)) = tally is_reject (log w).

(** An entry as the limiter holds them: made by [queueRequest] for a
    promise already handed out, and retried at most three times. *)
Definition good (next : nat) (r : request) : Prop :=
  maxRetries r = 3%nat /\ (retries r <= 3)%nat /\ (promise r < next)%nat.

Definition held_ok (w : world) : Prop :=
  Forall (good (nextPromise w)) (queue (rl w))
  /\ match loop w with
     | Executing r => good (nextPromise w) r
     | BackoffDelay r _ => good (nextPromise w) r /\ (1 <= retries r)%nat
     | _ => True
     end.

Definition retry_ok (e : effect) : Prop :=
  match e with
  | Retry _ k ms => (1 <= k <= 3)%nat /\ ms = 2 ^ Z.of_nat k * 1000
  | _ => True
  end.

Definition Inv2 (w : world) : Prop :=
  counts w /\ held_ok w /\ Forall retry_ok (log w).

(** [w'] has the log of [w] and, before it, effects that satisfy [Q]. *)
Definition grows (Q : effect -> Prop) (w w' : world) : Prop :=
  exists new, log w' = new ++ log w /\ Forall Q new.

(** The callbacks in which the loop makes a pass. *)
Definition passes (e : event) : Prop :=
  match e with
  | QueueRequest _ _ | DelayElapsed | ExecuteSettled => True
  | _ => False
  end.

(** What the callback of the event [e], run at time [t] in the world [w],
    can add to the log. *)
Definition may_emit (w : world) (t : Z) (e : event) (x : effect) : Prop :=
  match x with
  | Executed t' _ _ name =>
    passes e /\ t' = t
    /\ dailyCredits (rl w) + credits_of name <= MAX_CREDITS_PER_DAY
    /\ secondlyCredits (rl w) + credits_of name <= SAFE_CREDITS_PER_SECOND
  | Throttled _ _ => passes e
  | Delay _ => passes e
  | Resolve _ _ | Reject _ _ | Retry _ _ _ =>
    match e with ExecuteSettled => True | _ => False end
  | SecondReset t' =>
    match e with SecondTimer => t' = t | _ => False end
  | DayReset t' =>
    match e with
    | DayTimer today => t' = t /\ today <> lastResetDay (rl w)
    | _ => False
    end
  | Warning _ =>
    match e with MonitorTimer => True | _ => False end
  end.


(** The promises whose operation was started for the first time, in the
    order of the log. *)
Definition first_attempt (m : mark) : option nat :=
  match m with
  | Ran id O => Some id
  | _ => None
  end.

Definition started (l : list effect) : list nat := omap first_attempt (marks l).

(** The settlements of the promise [id]. *)
Definition settles (id : nat) (m : mark) : bool :=
  match m with
  | Settled id' _ => Nat.eqb id id'
  | _ => false
  end.

Fixpoint settlements (id : nat) (l : list mark) : nat :=
  match l with
  | [] => O
  | m :: rest => ((if settles id m then 1 else 0) + settlements id rest)%nat
  end.

(** ** The batches of the scalability test (src/tests/scalability-test) *)

(** [Array.prototype.slice(start, end)] for [0 <= start <= end]. *)
Definition slice {A} (l : list A) (start finish : Z) : list A :=
  take (Z.to_nat (finish - start)) (drop (Z.to_nat start) l).

(** [Math.ceil(volume / batchSize)] on non-negative integers. *)
Definition numBatches (volume size : Z) : Z := (volume + size - 1) / size.

(** The batch number [i] of [testVolume]: [batchStart], [batchEnd] and the
    slice of [testCredentials] between them. *)
Definition batch {A} (testCredentials : list A) (volume size i : Z) : list A :=
  let batchStart := i * size in
  let batchEnd := Z.min (batchStart + size) volume in
  slice testCredentials batchStart batchEnd.

(** The batches the [for] loop of [testVolume] goes through, in order. *)
Definition batches {A} (testCredentials : list A) (volume size : Z)
    : list (list A) :=
  map (fun i => batch testCredentials volume size (Z.of_nat i))
    (seq 0 (Z.to_nat (numBatches volume size))).

(** * Properties *)

(** ** The synchronous methods *)

Lemma getCreditsForMethod_eq name l :
  getCreditsForMethod name l = (credits_of name, l).
Proof. reflexivity. Qed.

Lemma credits_of_range name : 5 <= credits_of name <= 20.
Proof.
  assert (Htable : map_Forall (fun _ c => 5 <= c <= 20) CREDIT_COSTS).
  { unfold CREDIT_COSTS; simpl.
    repeat (apply map_Forall_insert_2; [lia|]). apply map_Forall_empty. }
  unfold credits_of, getCreditsForMethod, bind, gets, ret; simpl.
  destruct (CREDIT_COSTS !! name) as [c|] eqn:Hc; [|lia].
  apply Htable in Hc. destruct (c =? 0) eqn:Hz; lia.
Qed.

Lemma canProceed_eq name l : canProceed name l = (verdict_of name l, l).
Proof.
  unfold canProceed, verdict_of, bind, gets, ret.
  rewrite getCreditsForMethod_eq.
  destruct (_ >? MAX_CREDITS_PER_DAY); [reflexivity|].
  destruct (_ >? SAFE_CREDITS_PER_SECOND); reflexivity.
Qed.

Lemma allowed_verdict name l :
  allowed (verdict_of name l) = true <->
  dailyCredits l + credits_of name <= MAX_CREDITS_PER_DAY /\
  secondlyCredits l + credits_of name <= SAFE_CREDITS_PER_SECOND.
Proof.
  unfold verdict_of.
  destruct (Z.gtb_spec (dailyCredits l + credits_of name) MAX_CREDITS_PER_DAY);
  [simpl; split; [discriminate | lia]|].
  destruct (Z.gtb_spec (secondlyCredits l + credits_of name) SAFE_CREDITS_PER_SECOND);
  simpl; split; try discriminate; try lia; auto.
Qed.

Lemma trackUsage_eq name l : trackUsage name l = (tt, charged name l).
Proof. reflexivity. Qed.

(** ** Batch sizing *)

(** On doubles, as on rationals: 400 * 0.8 is 320, 320 / 20 is 16, and the
    threshold of the daily warning, 3000000 * 0.8, is 2400000. *)
#[warnings="-inexact-float"]
Example available_credits_double :
  (400 * 0.8 = 320 /\ 400 * 0.8 / 20 = 16 /\ 3000000 * 0.8 = 2400000)%float.
Proof. repeat split; vm_compute; reflexivity. Qed.

Lemma Qfloor_quotient (a c : Z) :
  0 < c -> Qfloor (inject_Z a / inject_Z c) = a / c.
Proof.
  intros Hc. destruct c as [|c|c]; try lia.
  unfold Qdiv, Qinv, Qmult, inject_Z, Qfloor; simpl.
  rewrite Z.mul_1_r. reflexivity.
Qed.

Lemma batch_size_floor (c : Z) :
  0 < c -> calculateOptimalBatchSize c = Z.min (320 / c) 50.
Proof.
  intros Hc. unfold calculateOptimalBatchSize.
  destruct (Z.eqb_spec c 0) as [->|_]; [lia|].
  f_equal. rewrite <- (Qfloor_quotient 320 c Hc).
  apply Qfloor_comp. apply Qdiv_comp; reflexivity.
Qed.

(** C8: for a positive cost per operation, [calculateOptimalBatchSize] is
    the floor of (the safe per-second budget times 0.8) over the cost, capped
    at 50; for a cost of 20 it is 16, and the exported configuration has a
    delay of 3000 ms between batches and one batch at a time. *)
Theorem batch_size_advice (c : Z) :
  0 < c ->
  calculateOptimalBatchSize c
    = Z.min (Qfloor ((inject_Z SAFE_CREDITS_PER_SECOND * 0.8) / inject_Z c)) 50
  /\ calculateOptimalBatchSize c = Z.min (SAFE_CREDITS_PER_SECOND * 8 / 10 / c) 50
  /\ calculateOptimalBatchSize 20 = 16
  /\ batchSize getOptimalBatchConfig = 16
  /\ delayBetweenBatches getOptimalBatchConfig = 3000
  /\ maxConcurrentBatches getOptimalBatchConfig = 1.
Proof.
  intros Hc. split; [|split; [|repeat split]].
  - unfold calculateOptimalBatchSize.
    destruct (Z.eqb_spec c 0) as [->|_]; [lia | reflexivity].
  - apply (batch_size_floor c Hc).
Qed.

Lemma batch_size_advice_witness :
  0 < 15 /\ calculateOptimalBatchSize 15 = Z.min (400 * 8 / 10 / 15) 50.
Proof.
  split; [lia|].
  refine (proj1 (proj2 (batch_size_advice 15 _))). lia.
Defined.

(** C10: a cost per operation above 320 gives a batch size of zero, and the
    argument is divided by without a check of its sign: a negative cost gives
    a negative batch size. *)
Theorem batch_size_zero (c : Z) :
  320 < c ->
  calculateOptimalBatchSize c = 0
  /\ calculateOptimalBatchSize (-1) = -320
  /\ calculateOptimalBatchSize (-400) = -1.
Proof.
  intros Hc. split; [|split; reflexivity].
  rewrite batch_size_floor by lia.
  rewrite Z.div_small by lia. reflexivity.
Qed.

Lemma batch_size_zero_witness : 320 < 321 /\ calculateOptimalBatchSize 321 = 0.
Proof.
  split; [lia|].
  refine (proj1 (batch_size_zero 321 _)). lia.
Defined.

(** ** Admission *)



(** ** The loop, one pass at a time *)

Lemma drain_cases w :
  (queue (rl w) = [] /\
   drain w = set_loop NotRunning (upd (set_processing false) w))
  \/ (exists r rest, queue (rl w) = r :: rest /\
        allowed (verdict_of (method r) (rl w)) = false /\
        drain w = throttled_world r w)
  \/ (exists r rest, queue (rl w) = r :: rest /\
        allowed (verdict_of (method r) (rl w)) = true /\
        drain w = started_world r rest w).
Proof.
  unfold drain. destruct (queue (rl w)) as [|r rest] eqn:Hq; [left; auto|].
  right. unfold call. rewrite canProceed_eq. simpl.
  destruct (allowed (verdict_of (method r) (rl w))) eqn:Ha; simpl.
  - right. exists r, rest. repeat split; auto.
  - left. exists r, rest. repeat split; auto.
Qed.

Lemma run_app w tr1 tr2 :
  run w (tr1 ++ tr2) = match run w tr1 with
                       | Some w' => run w' tr2
                       | None => None
                       end.
Proof.
  revert w. induction tr1 as [|[t e] tr1 IH]; intros w; simpl; [reflexivity|].
  destruct (step w t e); [apply IH | reflexivity].
Qed.

(** Induction on the runs from the constructor's state. *)
Lemma reachable_ind (P : world -> Prop) :
  (forall today, P (init today)) ->
  (forall w t e w', P w -> step w t e = Some w' -> P w') ->
  forall w, reachable w -> P w.
Proof.
  intros Hinit Hstep w (today & trace & Hrun).
  assert (Hgen : forall tr w0, P w0 -> run w0 tr = Some w -> P w).
  { induction tr as [|[t e] tr IH]; intros w0 H0 Hr; simpl in Hr.
    - congruence.
    - destruct (step w0 t e) as [w1|] eqn:Hs; [|discriminate].
      eapply IH; [|exact Hr]. eapply Hstep; eauto. }
  eapply Hgen; [apply Hinit | exact Hrun].
Qed.

Lemma reachable_step w t e w' :
  reachable w -> step w t e = Some w' -> reachable w'.
Proof.
  intros (today & trace & Hrun) Hs. exists today, (trace ++ [(t, e)]).
  rewrite run_app, Hrun. simpl. rewrite Hs. reflexivity.
Qed.

Lemma reachable_run w tr w' :
  reachable w -> run w tr = Some w' -> reachable w'.
Proof.
  intros (today & trace & Hrun) Hs. exists today, (trace ++ tr).
  rewrite run_app, Hrun. exact Hs.
Qed.

(** ** The invariant *)

Ltac open_world w :=
  destruct w as [[?s ?d ?ls ?ld ?q ?p ?st] ?c ?lp ?np ?lg ?sd ?dd ?mo].

Lemma drain_Inv w :
  processing (rl w) = true -> bounds w -> ledger w -> Inv (drain w).
Proof.
  intros Hp Hb Hl.
  destruct (drain_cases w) as [[Hq ->]|[(r & rest & Hq & Ha & ->)|(r & rest & Hq & Ha & ->)]].
  - open_world w. simpl in *. subst. repeat split; simpl; try apply Hb; apply Hl.
  - open_world w. simpl in *. subst. repeat split; simpl; try apply Hb; try apply Hl.
    discriminate.
  - apply allowed_verdict in Ha. pose proof (credits_of_range (method r)).
    open_world w. unfold bounds, ledger in *. simpl in *. subst.
    repeat split; simpl; lia.
Qed.

Lemma processQueue_Inv w :
  match loop w with
  | NotRunning => processing (rl w) = false
  | _ => shape w
  end ->
  bounds w -> ledger w -> Inv (processQueue w).
Proof.
  intros Hs Hb Hl. unfold processQueue.
  destruct (processing (rl w)) eqn:Hp; simpl.
  - split; [|split; assumption]. unfold shape in *.
    destruct (loop w); [congruence | assumption..].
  - destruct (queue (rl w)) as [|r rest] eqn:Hq; simpl.
    + split; [|split; assumption]. unfold shape in *.
      destruct (loop w); [auto | destruct Hs; congruence | congruence..].
    + apply drain_Inv; [reflexivity | open_world w; exact Hb | open_world w; exact Hl].
Qed.

Lemma Inv_frame w w' :
  rl w' = rl w -> loop w' = loop w -> log w' = log w -> Inv w -> Inv w'.
Proof.
  intros Hrl Hloop Hlog. unfold Inv, shape, bounds, ledger.
  rewrite Hrl, Hloop, Hlog. auto.
Qed.

Lemma settle_Inv r w :
  loop w = Executing r -> Inv w -> Inv (settle r w).
Proof.
  intros Hloop (Hs & Hb & Hl). unfold shape in Hs. rewrite Hloop in Hs.
  unfold settle. destruct (executeFn r (retries r)) as [v|err].
  - apply drain_Inv; open_world w; assumption.
  - destruct (retryable err r).
    + open_world w. unfold Inv, shape, bounds, ledger in *. simpl in *. auto.
    + apply drain_Inv; open_world w; assumption.
Qed.

Lemma step_Inv w t e w' : Inv w -> step w t e = Some w' -> Inv w'.
Proof.
  intros HI Hstep. unfold step in Hstep.
  destruct (t <? clock w); [discriminate|].
  assert (HI0 : Inv (set_clock t w)) by (eapply Inv_frame; [..|exact HI]; reflexivity).
  revert Hstep HI0. generalize (set_clock t w). clear HI. intros w0 Hstep HI.
  destruct e as [name f| |today|ms| | |].
  - (* queueRequest *)
    injection Hstep as <-. unfold queueRequest.
    destruct HI as (Hs & Hb & Hl).
    apply processQueue_Inv; [|open_world w0; assumption..].
    open_world w0. unfold shape in *. simpl in *.
    destruct lp; simpl in *; try tauto.
    split; [apply Hs|]. intros Hnil. apply app_eq_nil in Hnil as [_ Hnil]. discriminate.
  - (* the one-second timer *)
    destruct (t <? secondDue w0); [discriminate|]. injection Hstep as <-.
    eapply Inv_frame; [reflexivity..|]. unfold secondTick.
    destruct HI as (Hs & Hb & Hl).
    apply processQueue_Inv.
    + open_world w0. unfold shape in *. simpl in *. destruct lp; tauto.
    + open_world w0. unfold bounds in *. simpl in *.
      unfold SAFE_CREDITS_PER_SECOND. lia.
    + open_world w0. unfold ledger in *. simpl in *. tauto.
  - (* the one-minute timer *)
    destruct (t <? dayDue w0); [discriminate|]. injection Hstep as <-.
    eapply Inv_frame; [reflexivity..|]. unfold dayTick.
    destruct (bool_decide _); [|assumption].
    destruct HI as (Hs & Hb & Hl).
    open_world w0. unfold Inv, shape, bounds, ledger in *. simpl in *.
    unfold MAX_CREDITS_PER_DAY. repeat split; try tauto; try lia.
  - (* startMonitoring *)
    destruct (monitor w0); [discriminate|]. injection Hstep as <-.
    eapply Inv_frame; [reflexivity..|]. assumption.
  - (* the monitoring timer *)
    destruct (monitor w0) as [[ms due]|]; [|discriminate].
    destruct (t <? due); [discriminate|]. injection Hstep as <-.
    eapply Inv_frame; [reflexivity..|]. unfold monitorTick, call, getStats, gets.
    destruct (negb _); [|open_world w0; assumption].
    open_world w0. exact HI.
  - (* a delay has elapsed *)
    destruct (loop w0) as [|due|r|r due] eqn:Hloop; try discriminate.
    + destruct (t <? due); [discriminate|]. injection Hstep as <-.
      destruct HI as (Hs & Hb & Hl). unfold shape in Hs. rewrite Hloop in Hs.
      apply drain_Inv; tauto.
    + destruct (t <? due); [discriminate|]. injection Hstep as <-.
      destruct HI as (Hs & Hb & Hl). unfold shape in Hs. rewrite Hloop in Hs.
      unfold requeue. apply drain_Inv; open_world w0; assumption.
  - (* the operation has settled *)
    destruct (loop w0) as [|due|r|r due] eqn:Hloop; try discriminate.
    injection Hstep as <-. apply settle_Inv; assumption.
Qed.

Lemma reachable_Inv w : reachable w -> Inv w.
Proof.
  apply reachable_ind.
  - intros today. unfold Inv, shape, bounds, ledger,
      SAFE_CREDITS_PER_SECOND, MAX_CREDITS_PER_DAY. simpl. repeat split; lia.
  - intros w0 t e w1 HI Hs. exact (step_Inv _ _ _ _ HI Hs).
Qed.

(** ** The two budgets *)






(** ** The order of execution *)

Lemma marks_cons e l :
  marks (e :: l) = marks l ++ match mark_of e with Some m => [m] | None => [] end.
Proof.
  unfold marks. simpl. rewrite omap_app. simpl.
  destruct (mark_of e); reflexivity.
Qed.

Lemma drain_plan w :
  marks (log (drain w)) ++ pending (drain w)
  = marks (log w) ++ flat_map plan_of (queue (rl w))
  /\ nextPromise (drain w) = nextPromise w.
Proof.
  destruct (drain_cases w) as [[Hq ->]|[(r & rest & Hq & Ha & ->)|(r & rest & Hq & Ha & ->)]].
  - rewrite Hq. open_world w. simpl in *. subst. auto.
  - rewrite Hq. open_world w. unfold pending. simpl in *. subst.
    rewrite !marks_cons. simpl. rewrite !app_nil_r. auto.
  - rewrite Hq. open_world w. unfold pending. simpl in *. subst.
    rewrite marks_cons. simpl. rewrite <- app_assoc. auto.
Qed.

Lemma processQueue_plan w :
  (processing (rl w) = false -> loop w = NotRunning) ->
  marks (log (processQueue w)) ++ pending (processQueue w)
  = marks (log w) ++ pending w
  /\ nextPromise (processQueue w) = nextPromise w.
Proof.
  intros Hs. unfold processQueue.
  destruct (processing (rl w)) eqn:Hp; simpl; [auto|].
  destruct (queue (rl w)) as [|r rest] eqn:Hq; simpl; [auto|].
  destruct (drain_plan (upd (set_processing true) w)) as [-> ->].
  unfold pending. rewrite (Hs eq_refl).
  open_world w. simpl in *. subst. auto.
Qed.

Lemma shape_idle w : shape w -> processing (rl w) = false -> loop w = NotRunning.
Proof. unfold shape. destruct (loop w); intuition congruence. Qed.

Lemma step_plan w t e w' :
  shape w -> step w t e = Some w' ->
  marks (log w') ++ pending w'
  = (marks (log w) ++ pending w)
    ++ flat_map plan_of (submissions (nextPromise w) [(t, e)])
  /\ nextPromise w'
     = (nextPromise w + length (submissions (nextPromise w) [(t, e)]))%nat.
Proof.
  intros Hs Hstep. unfold step in Hstep.
  destruct (t <? clock w); [discriminate|].
  assert (Hs0 : shape (set_clock t w)) by (open_world w; exact Hs).
  assert (H1 : marks (log (set_clock t w)) ++ pending (set_clock t w)
               = marks (log w) ++ pending w) by (open_world w; reflexivity).
  assert (H2 : nextPromise (set_clock t w) = nextPromise w) by reflexivity.
  revert Hstep Hs0 H1 H2. generalize (set_clock t w). clear Hs.
  intros w0 Hstep Hs H1 H2. rewrite <- H1, <- H2. clear H1 H2 w.
  destruct e as [name f| |today|ms| | |]; simpl; rewrite ?app_nil_r, ?Nat.add_0_r.
  - (* queueRequest *)
    injection Hstep as <-. unfold queueRequest.
    match goal with |- context [processQueue ?x] =>
      destruct (processQueue_plan x) as [-> ->] end.
    + intros Hp. apply (shape_idle w0 Hs). open_world w0. exact Hp.
    + open_world w0. unfold pending. simpl.
      rewrite flat_map_app. simpl. rewrite app_nil_r, !app_assoc.
      split; [reflexivity | lia].
  - (* the one-second timer *)
    destruct (t <? secondDue w0); [discriminate|]. injection Hstep as <-.
    unfold secondTick.
    match goal with |- context [processQueue ?x] =>
      pose proof (processQueue_plan x) as Hpq end.
    destruct Hpq as [Hm Hn].
    + intros Hp. apply (shape_idle w0 Hs). open_world w0. exact Hp.
    + revert Hm Hn. match goal with |- context [processQueue ?x] =>
        generalize (processQueue x) end.
      intros w1 Hm Hn. open_world w1. open_world w0.
      unfold pending in *. simpl in *. rewrite marks_cons in Hm. simpl in Hm.
      rewrite app_nil_r in Hm. auto.
  - (* the one-minute timer *)
    destruct (t <? dayDue w0); [discriminate|]. injection Hstep as <-.
    unfold dayTick. destruct (bool_decide _); open_world w0; unfold pending; simpl;
      rewrite ?marks_cons; simpl; rewrite ?app_nil_r; auto.
  - (* startMonitoring *)
    destruct (monitor w0); [discriminate|]. injection Hstep as <-.
    open_world w0. auto.
  - (* the monitoring timer *)
    destruct (monitor w0) as [[ms due]|]; [|discriminate].
    destruct (t <? due); [discriminate|]. injection Hstep as <-.
    unfold monitorTick, call, getStats, gets.
    destruct (negb _); open_world w0; unfold pending; simpl;
      rewrite ?marks_cons; simpl; rewrite ?app_nil_r; auto.
  - (* a delay has elapsed *)
    destruct (loop w0) as [|due|r|r due] eqn:Hloop; try discriminate.
    + destruct (t <? due); [discriminate|]. injection Hstep as <-.
      destruct (drain_plan w0) as [-> ->]. unfold pending. rewrite Hloop. auto.
    + destruct (t <? due); [discriminate|]. injection Hstep as <-.
      unfold requeue.
      match goal with |- context [drain ?x] =>
        destruct (drain_plan x) as [-> ->] end.
      unfold pending. rewrite Hloop. open_world w0. simpl. auto.
  - (* the operation has settled *)
    destruct (loop w0) as [|due|r|r due] eqn:Hloop; try discriminate.
    injection Hstep as <-. unfold settle, pending at 2. rewrite Hloop.
    unfold after_current, retryable.
    destruct (Nat.ltb_spec (retries r) (maxRetries r)) as [Hlt|Hge].
    + replace (maxRetries r - retries r)%nat
        with (S (maxRetries r - S (retries r))) by lia.
      simpl. destruct (executeFn r (retries r)) as [v|err] eqn:Hf.
      * match goal with |- context [drain ?x] =>
          destruct (drain_plan x) as [-> ->] end.
        open_world w0. simpl. rewrite marks_cons. simpl.
        rewrite <- !app_assoc. auto.
      * destruct (is429 (code err)); simpl.
        -- open_world w0. unfold pending, plan_of, after_current. simpl.
           rewrite !marks_cons. simpl. rewrite app_nil_r, <- !app_assoc. auto.
        -- match goal with |- context [drain ?x] =>
             destruct (drain_plan x) as [-> ->] end.
           open_world w0. simpl. rewrite marks_cons. simpl.
           rewrite <- !app_assoc. auto.
    + replace (maxRetries r - retries r)%nat with O by lia.
      simpl. destruct (executeFn r (retries r)) as [v|err] eqn:Hf.
      * match goal with |- context [drain ?x] =>
          destruct (drain_plan x) as [-> ->] end.
        open_world w0. simpl. rewrite marks_cons. simpl.
        rewrite <- !app_assoc. auto.
      * rewrite andb_false_r.
        match goal with |- context [drain ?x] =>
          destruct (drain_plan x) as [-> ->] end.
        open_world w0. simpl. rewrite marks_cons. simpl.
        rewrite <- !app_assoc. destruct (is429 (code err)); auto.
Qed.

Lemma submissions_cons next t e trace :
  submissions next ((t, e) :: trace)
  = submissions next [(t, e)]
    ++ submissions (next + length (submissions next [(t, e)])) trace.
Proof.
  destruct e; simpl; rewrite ?Nat.add_0_r; try reflexivity.
  replace (next + 1)%nat with (S next) by lia. reflexivity.
Qed.

Lemma run_plan trace : forall w w',
  Inv w -> run w trace = Some w' ->
  marks (log w') ++ pending w'
  = (marks (log w) ++ pending w)
    ++ flat_map plan_of (submissions (nextPromise w) trace).
Proof.
  induction trace as [|[t e] trace IH]; intros w w' HI Hrun; simpl in Hrun.
  - injection Hrun as <-. simpl. rewrite app_nil_r. reflexivity.
  - destruct (step w t e) as [w1|] eqn:Hstep; [|discriminate].
    destruct (step_plan w t e w1 (proj1 HI) Hstep) as [Hm Hn].
    rewrite (IH w1 w' (step_Inv _ _ _ _ HI Hstep) Hrun), Hm, Hn.
    rewrite (submissions_cons _ t e trace), flat_map_app, app_assoc.
    reflexivity.
Qed.

(** What has happened so far, followed by what is still to happen for the
    requests the limiter holds, is the sequence of the plans of all
    submissions in the order in which they were made. *)
Lemma execution_plan today trace w :
  run (init today) trace = Some w ->
  marks (log w) ++ pending w = flat_map plan_of (submissions 0 trace).
Proof.
  intros Hrun. rewrite (run_plan trace (init today) w); [reflexivity| |exact Hrun].
  apply reachable_Inv. exists today, []. reflexivity.
Qed.

Lemma idle_nothing_pending w : Inv w -> loop w = NotRunning -> pending w = [].
Proof.
  intros (Hs & _) Hloop. unfold shape in Hs. unfold pending.
  rewrite Hloop in *. destruct Hs as [_ ->]. reflexivity.
Qed.

Lemma plan_not_transient name f id :
  transient (f 0%nat) = false ->
  plan_of (new_entry name f id) = [Ran id 0; Settled id (f 0%nat)].
Proof.
  unfold plan_of, after_current, transient. simpl.
  destruct (f 0%nat) as [v|e]; [reflexivity|]. intros ->. reflexivity.
Qed.

(** C4: three submissions A, B, C in that order, where A is refused once
    with the code 429 and then succeeds and the first attempts of B and C are
    not refused in that way: whatever the other events and their timing, the
    history is at every moment a beginning of
    A, backoff of 2000 ms, A again, A settled, B, B settled, C, C settled,
    and it is all of it once the loop has stopped. *)
Theorem retry_keeps_its_place today trace w nA nB nC fA fB fC eA vA :
  run (init today) trace = Some w ->
  submissions 0 trace
    `prefix_of` [new_entry nA fA 0; new_entry nB fB 1; new_entry nC fC 2] ->
  fA 0%nat = Rejected eA -> code eA = JNum 429 -> fA 1%nat = Fulfilled vA ->
  transient (fB 0%nat) = false -> transient (fC 0%nat) = false ->
  let history :=
    [ Ran 0 0; Backoff 1 2000; Ran 0 1; Settled 0 (Fulfilled vA);
      Ran 1 0; Settled 1 (fB 0%nat); Ran 2 0; Settled 2 (fC 0%nat) ] in
  marks (log w) `prefix_of` history
  /\ (length (submissions 0 trace) = 3%nat -> loop w = NotRunning ->
      marks (log w) = history).
Proof.
  intros Hrun [later Hsub] HA0 HeA HA1 HB HC history.
  pose proof (execution_plan today trace w Hrun) as Hplan.
  assert (Hall : flat_map plan_of
            [new_entry nA fA 0; new_entry nB fB 1; new_entry nC fC 2] = history).
  { cbn [flat_map].
    rewrite (plan_not_transient nB fB 1 HB), (plan_not_transient nC fC 2 HC).
    unfold plan_of, after_current. simpl. rewrite HA0, HeA. simpl.
    rewrite HA1. reflexivity. }
  split.
  - rewrite <- Hall, Hsub, flat_map_app, <- Hplan, <- app_assoc.
    eexists. reflexivity.
  - intros Hlen Hidle.
    assert (Hr : reachable w) by (exists today, trace; exact Hrun).
    rewrite (idle_nothing_pending w (reachable_Inv w Hr) Hidle), app_nil_r in Hplan.
    rewrite Hplan, <- Hall, Hsub.
    assert (later = []) as ->.
    { apply (f_equal (@length request)) in Hsub. rewrite length_app in Hsub.
      simpl in Hsub. destruct later; [reflexivity | simpl in Hsub; lia]. }
    rewrite app_nil_r. reflexivity.
Qed.

Lemma retry_keeps_its_place_witness :
  run (init "Mon Nov 02 2026") three_submissions = Some (after_trace three_submissions)
  /\ marks (log (after_trace three_submissions))
     = [ Ran 0 0; Backoff 1 2000; Ran 0 1; Settled 0 (Fulfilled (JStr "0xa"));
         Ran 1 0; Settled 1 (Fulfilled (JStr "0xb"));
         Ran 2 0; Settled 2 (Fulfilled (JNum 7)) ].
Proof.
  assert (Hrun : run (init "Mon Nov 02 2026") three_submissions
                 = Some (after_trace three_submissions))
    by (vm_compute; reflexivity).
  split; [exact Hrun|].
  refine (proj2 (retry_keeps_its_place "Mon Nov 02 2026" three_submissions
            (after_trace three_submissions)
            "eth_sendRawTransaction" "eth_call" "eth_getBalance"
            fails_once (fun _ => Fulfilled (JStr "0xb")) (fun _ => Fulfilled (JNum 7))
            too_many_requests (JStr "0xa") Hrun _ _ _ _ _ _) _ _).
  - exists []. reflexivity.
  - reflexivity.
  - reflexivity.
  - reflexivity.
  - reflexivity.
  - reflexivity.
  - reflexivity.
  - vm_compute. reflexivity.
Defined.

(** ** Retries *)

Lemma submissions_entry trace : forall next before r after,
  submissions next trace = before ++ r :: after ->
  r = new_entry (method r) (executeFn r) (next + length before).
Proof.
  induction trace as [|[t e] trace IH]; intros next before r after H.
  - destruct before; discriminate.
  - destruct e; simpl in H; try (apply (IH _ _ _ _ H)).
    destruct before as [|b before]; simpl in H.
    + injection H as <- _. simpl. rewrite Nat.add_0_r. reflexivity.
    + injection H as _ H. rewrite (IH _ _ _ _ H) at 1. simpl.
      f_equal. lia.
Qed.

Lemma transient_rejected o :
  transient o = true -> exists e, o = Rejected e /\ is429 (code e) = true.
Proof. destruct o as [v|e]; simpl; [discriminate | eauto]. Qed.

Lemma plan_always_refused r :
  retries r = 0%nat -> maxRetries r = 3%nat ->
  (forall k, transient (executeFn r k) = true) ->
  plan_of r
  = [ Ran (promise r) 0; Backoff 1 2000; Ran (promise r) 1; Backoff 2 4000;
      Ran (promise r) 2; Backoff 3 8000; Ran (promise r) 3;
      Settled (promise r) (executeFn r 3%nat) ].
Proof.
  intros H0 H3 H. unfold plan_of, after_current. rewrite H0, H3. simpl.
  destruct (transient_rejected _ (H 0%nat)) as (e0 & -> & ->).
  destruct (transient_rejected _ (H 1%nat)) as (e1 & -> & ->).
  destruct (transient_rejected _ (H 2%nat)) as (e2 & -> & ->).
  destruct (transient_rejected _ (H 3%nat)) as (e3 & -> & ->).
  reflexivity.
Qed.

(** A refusal with the code 429 while retries are left: the count goes up,
    the retry is announced, the loop waits the backoff with the request in
    hand and the queue untouched, and only then puts the request back at the
    front of the queue and goes on. *)
Lemma settle_retry w r e t :
  loop w = Executing r -> executeFn r (retries r) = Rejected e ->
  is429 (code e) = true -> (retries r < maxRetries r)%nat -> clock w <= t ->
  let k := S (retries r) in
  let ms := 2 ^ Z.of_nat k * 1000 in
  let r' := set_retries k r in
  exists w1,
    step w t ExecuteSettled = Some w1
    /\ loop w1 = BackoffDelay r' (t + ms)
    /\ queue (rl w1) = queue (rl w)
    /\ log w1 = Delay ms :: Retry (method r) k ms :: log w
    /\ (forall t', t' < t + ms -> step w1 t' DelayElapsed = None)
    /\ (forall t', t + ms <= t' ->
          step w1 t' DelayElapsed
          = Some (drain (upd (fun l => set_queue (r' :: queue l) l)
                           (set_clock t' w1)))).
Proof.
  intros Hloop Hf H429 Hlt Ht k ms r'.
  assert (Hms : 0 <= ms) by (unfold ms; lia).
  unfold step. destruct (Z.ltb_spec t (clock w)) as [|_]; [lia|].
  simpl. rewrite Hloop. unfold settle, retryable.
  rewrite Hf, H429. destruct (Nat.ltb_spec (retries r) (maxRetries r)); [|lia].
  simpl. eexists. split; [reflexivity|].
  open_world w. simpl in *. repeat split.
  - intros t' Ht'. unfold step. simpl.
    destruct (Z.ltb_spec t' t); [reflexivity|].
    destruct (Z.ltb_spec t' (t + 2 ^ Z.of_nat (S (retries r)) * 1000));
      [reflexivity | unfold ms, k in *; lia].
  - intros t' Ht'. unfold step. simpl.
    destruct (Z.ltb_spec t' t); [unfold ms, k in *; lia|].
    destruct (Z.ltb_spec t' (t + 2 ^ Z.of_nat (S (retries r)) * 1000));
      [unfold ms, k in *; lia | reflexivity].
Qed.

(** C5: an operation that is refused with the code 429 every time is
    attempted four times, the retry number k after the announcement of a
    backoff of 2^k * 1000 ms, and after the fourth refusal its promise is
    rejected with the error of that attempt.  In every run the history
    followed by what is pending is the plans of the earlier submissions, these
    eight steps, then the plans of the later ones, and nothing is pending
    once the loop has stopped.  At each retry the loop waits the backoff
    before it puts the request back at the front of the queue. *)
Theorem bounded_retries today trace w before r after :
  run (init today) trace = Some w ->
  submissions 0 trace = before ++ r :: after ->
  (forall k, transient (executeFn r k) = true) ->
  let id := promise r in
  plan_of r
    = [ Ran id 0; Backoff 1 2000; Ran id 1; Backoff 2 4000;
        Ran id 2; Backoff 3 8000; Ran id 3; Settled id (executeFn r 3%nat) ]
  /\ (exists e, executeFn r 3%nat = Rejected e /\ is429 (code e) = true)
  /\ marks (log w) ++ pending w
     = flat_map plan_of before ++ plan_of r ++ flat_map plan_of after
  /\ (loop w = NotRunning ->
      marks (log w)
      = flat_map plan_of before ++ plan_of r ++ flat_map plan_of after)
  /\ (forall k w0 t,
        (k < 3)%nat -> loop w0 = Executing (set_retries k r) -> clock w0 <= t ->
        let ms := 2 ^ Z.of_nat (S k) * 1000 in
        let r' := set_retries (S k) r in
        exists w1,
          step w0 t ExecuteSettled = Some w1
          /\ loop w1 = BackoffDelay r' (t + ms)
          /\ queue (rl w1) = queue (rl w0)
          /\ log w1 = Delay ms :: Retry (method r) (S k) ms :: log w0
          /\ (forall t', t' < t + ms -> step w1 t' DelayElapsed = None)
          /\ (forall t', t + ms <= t' ->
                step w1 t' DelayElapsed
                = Some (drain (upd (fun l => set_queue (r' :: queue l) l)
                                 (set_clock t' w1))))).
Proof.
  intros Hrun Hsub Hall id.
  pose proof (submissions_entry trace 0 before r after Hsub) as Hr.
  pose proof (execution_plan today trace w Hrun) as Hplan.
  rewrite Hsub, flat_map_app in Hplan. cbn [flat_map] in Hplan.
  assert (H0 : retries r = 0%nat) by (rewrite Hr; reflexivity).
  assert (H3 : maxRetries r = 3%nat) by (rewrite Hr; reflexivity).
  split; [|split; [|split; [|split]]].
  - apply (plan_always_refused r H0 H3 Hall).
  - apply transient_rejected, Hall.
  - rewrite Hplan. reflexivity.
  - intros Hidle.
    assert (Hre : reachable w) by (exists today, trace; exact Hrun).
    rewrite (idle_nothing_pending w (reachable_Inv w Hre) Hidle), app_nil_r in Hplan.
    rewrite Hplan. reflexivity.
  - intros k w0 t Hk Hloop Ht ms r'.
    destruct (transient_rejected _ (Hall k)) as (e & Hf & H429).
    assert (Hlt : (retries (set_retries k r) < maxRetries (set_retries k r))%nat)
      by (simpl; lia).
    exact (settle_retry w0 (set_retries k r) e t Hloop Hf H429 Hlt Ht).
Qed.

Lemma bounded_retries_witness :
  run (init "Mon Nov 02 2026") refused_submission = Some (after_trace refused_submission)
  /\ loop (after_trace refused_submission) = NotRunning
  /\ marks (log (after_trace refused_submission))
     = [ Ran 0 0; Backoff 1 2000; Ran 0 1; Backoff 2 4000;
         Ran 0 2; Backoff 3 8000; Ran 0 3; Settled 0 (Rejected too_many_requests) ].
Proof.
  assert (Hrun : run (init "Mon Nov 02 2026") refused_submission
                 = Some (after_trace refused_submission))
    by (vm_compute; reflexivity).
  assert (Hidle : loop (after_trace refused_submission) = NotRunning)
    by (vm_compute; reflexivity).
  split; [exact Hrun|]. split; [exact Hidle|].
  refine (proj1 (proj2 (proj2 (proj2
    (bounded_retries "Mon Nov 02 2026" refused_submission
       (after_trace refused_submission) []
       (new_entry "eth_sendRawTransaction" always_refused 0) [] Hrun _ _)))) Hidle).
  - reflexivity.
  - intros k. reflexivity.
Defined.

(** ** Permanent failures *)



(** ** Denied admission *)

(** While the loop waits after a denial, no other callback touches the head
    of the queue, starts an operation or settles a promise. *)
Lemma waiting_step w t e w' r rest due :
  processing (rl w) = true -> loop w = ThrottleDelay due ->
  queue (rl w) = r :: rest -> e <> DelayElapsed ->
  step w t e = Some w' ->
  processing (rl w') = true /\ loop w' = ThrottleDelay due
  /\ (exists rest', queue (rl w') = r :: rest')
  /\ log w' = match e with
              | SecondTimer => SecondReset t :: log w
              | DayTimer today =>
                if bool_decide (today <> lastResetDay (rl w))
                then DayReset t :: log w else log w
              | MonitorTimer =>
                if negb (Qle_bool (inject_Z (dailyCredits (rl w)))
                           (inject_Z MAX_CREDITS_PER_DAY * 0.8)%Q)
                then Warning (fst (getStats (rl w))) :: log w else log w
              | _ => log w
              end
  /\ stats (rl w') = match e with
                     | DayTimer today =>
                       if bool_decide (today <> lastResetDay (rl w))
                       then set_dailyCreditsUsed 0 (stats (rl w)) else stats (rl w)
                     | _ => stats (rl w)
                     end.
Proof.
  intros Hp Hloop Hq He Hstep. unfold step in Hstep.
  destruct (t <? clock w); [discriminate|].
  destruct e as [name f| |today|ms| | |]; simpl in Hstep.
  - injection Hstep as <-. unfold queueRequest, processQueue.
    open_world w. simpl in *. subst. simpl. eauto 10.
  - destruct (t <? secondDue w); [discriminate|]. injection Hstep as <-.
    unfold secondTick, processQueue.
    open_world w. simpl in *. subst. simpl. eauto 10.
  - destruct (t <? dayDue w); [discriminate|]. injection Hstep as <-.
    unfold dayTick. open_world w. simpl in *. subst.
    destruct (bool_decide _); simpl; eauto 10.
  - destruct (monitor w); [discriminate|]. injection Hstep as <-.
    open_world w. simpl in *. subst. eauto 10.
  - destruct (monitor w) as [[ms due']|]; [|discriminate].
    destruct (t <? due'); [discriminate|]. injection Hstep as <-.
    unfold monitorTick, call, getStats, gets.
    open_world w. simpl in *. subst.
    destruct (negb _); simpl; eauto 10.
  - congruence.
  - rewrite Hloop in Hstep. discriminate.
Qed.

Lemma marks_unchanged e t w :
  e <> DelayElapsed ->
  marks (match e with
         | SecondTimer => SecondReset t :: log w
         | DayTimer today =>
           if bool_decide (today <> lastResetDay (rl w))
           then DayReset t :: log w else log w
         | MonitorTimer =>
           if negb (Qle_bool (inject_Z (dailyCredits (rl w)))
                      (inject_Z MAX_CREDITS_PER_DAY * 0.8)%Q)
           then Warning (fst (getStats (rl w))) :: log w else log w
         | _ => log w
         end) = marks (log w).
Proof.
  intros _. destruct e; try reflexivity.
  - rewrite marks_cons. apply app_nil_r.
  - destruct (bool_decide _); [|reflexivity]. rewrite marks_cons. apply app_nil_r.
  - destruct (negb _); [|reflexivity]. rewrite marks_cons. apply app_nil_r.
Qed.

Lemma waiting_run trace : forall w w' r rest due,
  processing (rl w) = true -> loop w = ThrottleDelay due ->
  queue (rl w) = r :: rest ->
  Forall (fun te => snd te <> DelayElapsed) trace ->
  run w trace = Some w' ->
  processing (rl w') = true /\ loop w' = ThrottleDelay due
  /\ (exists rest', queue (rl w') = r :: rest')
  /\ marks (log w') = marks (log w)
  /\ throttledRequests (stats (rl w')) = throttledRequests (stats (rl w))
  /\ failedRequests (stats (rl w')) = failedRequests (stats (rl w)).
Proof.
  induction trace as [|[t e] trace IH]; intros w w' r rest due Hp Hloop Hq Hall Hrun;
    simpl in Hrun.
  - injection Hrun as <-. eauto 10.
  - destruct (step w t e) as [w1|] eqn:Hstep; [|discriminate].
    apply Forall_cons in Hall as [He Hall]. simpl in He.
    destruct (waiting_step w t e w1 r rest due Hp Hloop Hq He Hstep)
      as (Hp1 & Hloop1 & (rest1 & Hq1) & Hlog1 & Hst1).
    destruct (IH w1 w' r rest1 due Hp1 Hloop1 Hq1 Hall Hrun)
      as (H1 & H2 & H3 & H4 & H5 & H6).
    rewrite H4, H5, H6, Hlog1, Hst1, (marks_unchanged e t w He).
    repeat split; auto; destruct e; try reflexivity;
      destruct (bool_decide _); reflexivity.
Qed.

(** C7: a pass of the loop that finds the head of the queue denied leaves
    the queue, both counters and the other statistics as they are, settles no
    promise and starts no operation; it adds one to [throttledRequests],
    emits a throttled event with the reason and waits 1000 ms.  Whatever
    callbacks run during the wait, the head of the queue stays the same entry
    and still nothing is settled; the wait cannot end before 1000 ms have
    passed, and when it ends the loop makes its next pass on that queue. *)
Theorem denial_leaves_queue w r rest :
  queue (rl w) = r :: rest ->
  allowed (fst (canProceed (method r) (rl w))) = false ->
  processing (rl w) = true ->
  let w1 := drain w in
  let due := clock w + 1000 in
  queue (rl w1) = r :: rest
  /\ secondlyCredits (rl w1) = secondlyCredits (rl w)
  /\ dailyCredits (rl w1) = dailyCredits (rl w)
  /\ stats (rl w1)
     = set_throttledRequests (throttledRequests (stats (rl w)) + 1) (stats (rl w))
  /\ processing (rl w1) = true
  /\ log w1
     = Delay 1000
         :: Throttled (method r) (reason (fst (canProceed (method r) (rl w))))
         :: log w
  /\ marks (log w1) = marks (log w)
  /\ loop w1 = ThrottleDelay due
  /\ forall trace w2,
       Forall (fun te => snd te <> DelayElapsed) trace ->
       run w1 trace = Some w2 ->
       loop w2 = ThrottleDelay due
       /\ (exists rest', queue (rl w2) = r :: rest')
       /\ marks (log w2) = marks (log w)
       /\ failedRequests (stats (rl w2)) = failedRequests (stats (rl w))
       /\ (forall t, t < due -> step w2 t DelayElapsed = None)
       /\ (forall t, due <= t -> clock w2 <= t ->
             step w2 t DelayElapsed = Some (drain (set_clock t w2))).
Proof.
  intros Hq Ha Hp w1 due. rewrite canProceed_eq in *. simpl in Ha.
  assert (Hw1 : w1 = throttled_world r w).
  { subst w1.
    destruct (drain_cases w) as [[Hq' _]|[(r' & rest' & Hq' & _ & ->)|(r' & rest' & Hq' & Ha' & _)]];
      rewrite Hq in Hq'; try discriminate; injection Hq' as <- <-;
      [reflexivity | congruence]. }
  assert (Hm : marks (log w1) = marks (log w)).
  { rewrite Hw1. unfold throttled_world. simpl. rewrite !marks_cons. simpl.
    rewrite !app_nil_r. reflexivity. }
  rewrite Hw1 in *. clear Hw1 w1.
  split; [open_world w; exact Hq|].
  split; [open_world w; reflexivity|].
  split; [open_world w; reflexivity|].
  split; [open_world w; reflexivity|].
  split; [open_world w; exact Hp|].
  split; [open_world w; reflexivity|].
  split; [exact Hm|].
  split; [reflexivity|].
  intros trace w2 Hall Hrun.
  destruct (waiting_run trace (throttled_world r w) w2 r rest due)
    as (H1 & H2 & H3 & H4 & H5 & H6); auto;
    try (open_world w; assumption).
  split; [exact H2|]. split; [exact H3|].
  split; [rewrite H4; exact Hm|].
  split; [rewrite H6; open_world w; reflexivity|].
  split.
  - intros t Ht. unfold step.
    destruct (t <? clock w2); [reflexivity|]. simpl. rewrite H2.
    destruct (Z.ltb_spec t due); [reflexivity | lia].
  - intros t Ht Hc. unfold step.
    destruct (Z.ltb_spec t (clock w2)); [lia|]. simpl. rewrite H2.
    destruct (Z.ltb_spec t due); [lia | reflexivity].
Qed.

Lemma denial_leaves_queue_witness :
  secondlyCredits (rl budget_spent) = 400
  /\ queue (rl (drain budget_spent)) = [new_entry "eth_call" succeeds 20]
  /\ log (drain budget_spent)
     = Delay 1000 :: Throttled "eth_call" (Some "Per-second rate limit")
         :: log budget_spent.
Proof.
  split; [vm_compute; reflexivity|].
  assert (H := denial_leaves_queue budget_spent
                 (new_entry "eth_call" succeeds 20) []).
  destruct H as (H1 & _ & _ & _ & _ & H6 & _).
  - vm_compute. reflexivity.
  - vm_compute. reflexivity.
  - vm_compute. reflexivity.
  - split; [exact H1|]. rewrite H6. vm_compute. reflexivity.
Defined.

(** ** The daily warning *)










(** *** A day's budget spent with no monitoring *)











(** * Further properties *)

(** ** The statistics and the entries the limiter holds *)

Lemma good_mono next r : good next r -> good (S next) r.
Proof. unfold good. intros (? & ? & ?). repeat split; auto; lia. Qed.

Lemma drain_Inv2 w :
  counts w -> Forall (good (nextPromise w)) (queue (rl w)) ->
  Forall retry_ok (log w) -> Inv2 (drain w).
Proof.
  intros Hc Hq Hl.
  destruct (drain_cases w) as [[Hq' ->]|[(r & rest & Hq' & Ha & ->)|(r & rest & Hq' & Ha & ->)]].
  - open_world w. unfold Inv2, counts, held_ok in *. simpl in *. subst.
    repeat split; tauto.
  - open_world w. unfold Inv2, counts, held_ok in *. simpl in *. subst.
    repeat split; try tauto; try lia. repeat constructor. exact Hl.
  - open_world w. unfold Inv2, counts, held_ok in *. simpl in *. subst.
    apply Forall_cons in Hq as [Hr Hrest].
    repeat split; try tauto; try lia; try apply Hr. constructor; [exact I | exact Hl].
Qed.

Lemma processQueue_Inv2 w :
  counts w -> Forall (good (nextPromise w)) (queue (rl w)) ->
  Forall retry_ok (log w) ->
  (processing (rl w) = true -> held_ok w) ->
  (queue (rl w) = [] -> held_ok w) ->
  Inv2 (processQueue w).
Proof.
  intros Hc Hq Hl Hbusy Hempty. unfold processQueue.
  destruct (processing (rl w)) eqn:Hp; simpl.
  - split; [exact Hc|]. split; [apply Hbusy; reflexivity | exact Hl].
  - destruct (queue (rl w)) as [|r rest] eqn:Hq'; simpl.
    + split; [exact Hc|]. split; [apply Hempty; reflexivity | exact Hl].
    + apply drain_Inv2; open_world w; simpl in *; subst; assumption.
Qed.

Lemma Inv2_frame w w' :
  rl w' = rl w -> loop w' = loop w -> log w' = log w ->
  nextPromise w' = nextPromise w -> Inv2 w -> Inv2 w'.
Proof.
  intros Hrl Hloop Hlog Hnp. unfold Inv2, counts, held_ok.
  rewrite Hrl, Hloop, Hlog, Hnp. auto.
Qed.

Lemma settle_Inv2 r w :
  loop w = Executing r -> Inv2 w -> Inv2 (settle r w).
Proof.
  intros Hloop (Hc & (Hq & Hr) & Hl). rewrite Hloop in Hr.
  unfold settle. destruct (executeFn r (retries r)) as [v|err].
  - apply drain_Inv2.
    + open_world w. unfold counts in *. simpl in *. tauto.
    + open_world w. exact Hq.
    + open_world w. simpl. constructor; [exact I | exact Hl].
  - unfold retryable. destruct (is429 (code err)); simpl.
    + destruct (Nat.ltb_spec (retries r) (maxRetries r)) as [Hlt|Hge].
      * destruct Hr as (Hmax & Hret & Hid).
        open_world w. unfold Inv2, counts, held_ok, good in *. simpl in *.
        repeat split; try tauto; try lia.
        constructor; [exact I|]. constructor; [|exact Hl].
        simpl. split; [lia | reflexivity].
      * apply drain_Inv2.
        -- open_world w. unfold counts in *. simpl in *.
           repeat split; try tauto. lia.
        -- open_world w. exact Hq.
        -- open_world w. simpl. constructor; [exact I | exact Hl].
    + apply drain_Inv2.
      * open_world w. unfold counts in *. simpl in *.
        repeat split; try tauto. lia.
      * open_world w. exact Hq.
      * open_world w. simpl. constructor; [exact I | exact Hl].
Qed.

Lemma step_Inv2 w t e w' : Inv w -> Inv2 w -> step w t e = Some w' -> Inv2 w'.
Proof.
  intros HI HI2 Hstep. unfold step in Hstep.
  destruct (t <? clock w); [discriminate|].
  assert (Hs0 : shape (set_clock t w)) by (open_world w; exact (proj1 HI)).
  assert (HI0 : Inv2 (set_clock t w))
    by (eapply Inv2_frame; [..|exact HI2]; reflexivity).
  revert Hstep Hs0 HI0. generalize (set_clock t w). clear HI HI2.
  intros w0 Hstep Hs (Hc & (Hq & Hr) & Hl).
  pose proof (conj Hc (conj (conj Hq Hr) Hl) : Inv2 w0) as H0.
  destruct e as [name f| |today|ms| | |].
  - (* queueRequest *)
    injection Hstep as <-. unfold queueRequest.
    assert (Hq' : Forall (good (S (nextPromise w0)))
                    (queue (rl w0) ++ [new_entry name f (nextPromise w0)])).
    { apply Forall_app. split.
      - eapply Forall_impl; [exact Hq | apply good_mono].
      - constructor; [|constructor]. unfold good. simpl. lia. }
    apply processQueue_Inv2.
    + open_world w0. exact Hc.
    + open_world w0. exact Hq'.
    + open_world w0. exact Hl.
    + intros _. open_world w0. unfold held_ok. simpl in *. split; [exact Hq'|].
      destruct lp; try exact I; try (apply good_mono; exact Hr).
      split; [apply good_mono|]; apply Hr.
    + intros Hnil. open_world w0. simpl in *.
      apply app_eq_nil in Hnil as [_ Hnil]. discriminate.
  - (* the one-second timer *)
    destruct (t <? secondDue w0); [discriminate|]. injection Hstep as <-.
    match goal with |- Inv2 (_ _ ?x) => apply (Inv2_frame x); [reflexivity..|] end.
    unfold secondTick.
    apply processQueue_Inv2.
    + open_world w0. unfold counts in *. simpl in *. tauto.
    + open_world w0. exact Hq.
    + open_world w0. simpl. constructor; [exact I | exact Hl].
    + intros _. open_world w0. split; assumption.
    + intros _. open_world w0. split; assumption.
  - (* the one-minute timer *)
    destruct (t <? dayDue w0); [discriminate|]. injection Hstep as <-.
    match goal with |- Inv2 (_ _ ?x) => apply (Inv2_frame x); [reflexivity..|] end.
    unfold dayTick.
    destruct (bool_decide _); [|exact H0].
    open_world w0. unfold Inv2, counts, held_ok in *. simpl in *.
    repeat split; try tauto. constructor; [exact I | exact Hl].
  - (* startMonitoring *)
    destruct (monitor w0); [discriminate|]. injection Hstep as <-.
    match goal with |- Inv2 (_ _ ?x) => apply (Inv2_frame x); [reflexivity..|] end.
    exact H0.
  - (* the monitoring timer *)
    destruct (monitor w0) as [[ms due]|]; [|discriminate].
    destruct (t <? due); [discriminate|]. injection Hstep as <-.
    match goal with |- Inv2 (_ _ ?x) => apply (Inv2_frame x); [reflexivity..|] end.
    unfold monitorTick, call, getStats, gets.
    destruct (negb _).
    + open_world w0. unfold Inv2, counts, held_ok in *. simpl in *.
      repeat split; try tauto. constructor; [exact I | exact Hl].
    + exact H0.
  - (* a delay has elapsed *)
    destruct (loop w0) as [|due|r|r due] eqn:Hloop; try discriminate.
    + destruct (t <? due); [discriminate|]. injection Hstep as <-.
      apply drain_Inv2; assumption.
    + destruct (t <? due); [discriminate|]. injection Hstep as <-.
      unfold requeue. apply drain_Inv2.
      * open_world w0. exact Hc.
      * open_world w0. simpl. constructor; [apply Hr | exact Hq].
      * open_world w0. exact Hl.
  - (* the operation has settled *)
    destruct (loop w0) as [|due|r|r due] eqn:Hloop; try discriminate.
    injection Hstep as <-. apply settle_Inv2; [exact Hloop|].
    split; [exact Hc|]. split; [|exact Hl]. split; [exact Hq|].
    rewrite Hloop. exact Hr.
Qed.

Lemma reachable_Inv2 w : reachable w -> Inv w /\ Inv2 w.
Proof.
  apply (reachable_ind (fun w => Inv w /\ Inv2 w)).
  - intros today. split; [apply reachable_Inv; exists today, []; reflexivity|].
    unfold Inv2, counts, held_ok. simpl. repeat split; constructor.
  - intros w0 t e w1 [HI HI2] Hs. split.
    + exact (step_Inv _ _ _ _ HI Hs).
    + exact (step_Inv2 _ _ _ _ HI HI2 Hs).
Qed.

(** ** What each callback can add to the log *)

Lemma grows_refl Q w w' : log w' = log w -> grows Q w w'.
Proof. intros H. exists []. split; [exact H | constructor]. Qed.

Lemma grows_after Q w w1 w2 new :
  log w1 = new ++ log w -> Forall Q new -> grows Q w1 w2 -> grows Q w w2.
Proof.
  intros H1 F1 (n2 & H2 & F2). exists (n2 ++ new).
  split; [rewrite H2, H1, app_assoc; reflexivity | apply Forall_app; auto].
Qed.

Lemma grows_frame Q w w1 w2 :
  log w2 = log w1 -> grows Q w w1 -> grows Q w w2.
Proof. intros H (n & H1 & F). exists n. split; [congruence | exact F]. Qed.

Lemma drain_grows (Q : effect -> Prop) w :
  (forall r rest, queue (rl w) = r :: rest ->
     allowed (verdict_of (method r) (rl w)) = true ->
     Q (Executed (clock w) (promise r) (retries r) (method r))) ->
  (forall name why, Q (Throttled name why)) -> Q (Delay 1000) ->
  grows Q w (drain w).
Proof.
  intros Hexec Hthr Hdel.
  destruct (drain_cases w) as [[_ ->]|[(r & rest & _ & _ & ->)|(r & rest & Hq & Ha & ->)]].
  - apply grows_refl. reflexivity.
  - eexists [_; _]. split; [reflexivity|]. repeat constructor; auto.
  - eexists [_]. split; [reflexivity|]. repeat constructor. eauto.
Qed.

(** A pass of the loop in the callback of [e], on a world with the counters
    of [w] and the clock at [t]. *)
Lemma pass_grows w t e w0 :
  passes e -> clock w0 = t ->
  dailyCredits (rl w0) = dailyCredits (rl w) ->
  secondlyCredits (rl w0) = secondlyCredits (rl w) ->
  grows (may_emit w t e) w0 (drain w0).
Proof.
  intros Hp Hc Hd Hs. apply drain_grows.
  - intros r rest _ Ha. apply allowed_verdict in Ha. simpl.
    rewrite <- Hd, <- Hs. tauto.
  - intros. exact Hp.
  - exact Hp.
Qed.

Lemma step_may_emit w t e w' :
  shape w -> step w t e = Some w' -> grows (may_emit w t e) w w'.
Proof.
  intros Hs Hstep. unfold step in Hstep.
  destruct (t <? clock w); [discriminate|].
  destruct e as [name f| |today|ms| | |]; simpl in Hstep.
  - (* queueRequest *)
    injection Hstep as <-. unfold queueRequest, processQueue.
    destruct (processing _ || _); [apply grows_refl; reflexivity|].
    eapply (grows_after _ _ _ _ []); [| constructor | apply pass_grows];
      solve [reflexivity | exact I].
  - (* the one-second timer *)
    destruct (t <? secondDue w); [discriminate|]. injection Hstep as <-.
    unfold secondTick, processQueue.
    assert (processing (rl w) || (length (queue (rl w)) =? 0)%nat = true) as Hidle.
    { unfold shape in Hs. destruct (processing (rl w)) eqn:Hp; [reflexivity|].
      destruct (loop w); try (destruct Hs; congruence); try congruence.
      destruct Hs as [_ ->]. reflexivity. }
    open_world w. simpl in *. rewrite Hidle.
    eexists [_]. split; [reflexivity|]. repeat constructor.
  - (* the one-minute timer *)
    destruct (t <? dayDue w); [discriminate|]. injection Hstep as <-.
    unfold dayTick. simpl. destruct (bool_decide_reflect (today <> lastResetDay (rl w))).
    + eexists [_]. split; [reflexivity|]. repeat constructor. assumption.
    + apply grows_refl. reflexivity.
  - (* startMonitoring *)
    destruct (monitor w); [discriminate|]. injection Hstep as <-.
    apply grows_refl. reflexivity.
  - (* the monitoring timer *)
    destruct (monitor w) as [[ms due]|]; [|discriminate].
    destruct (t <? due); [discriminate|]. injection Hstep as <-.
    unfold monitorTick, call, getStats, gets. simpl. destruct (negb _).
    + eexists [_]. split; [reflexivity|]. repeat constructor.
    + apply grows_refl. reflexivity.
  - (* a delay has elapsed *)
    destruct (loop w) as [|due|r|r due]; try discriminate;
      (destruct (t <? due); [discriminate|]); injection Hstep as <-.
    + eapply (grows_after _ _ _ _ []); [| constructor | apply pass_grows];
        solve [reflexivity | exact I].
    + unfold requeue.
      eapply (grows_after _ _ _ _ []); [| constructor | apply pass_grows];
        solve [reflexivity | exact I].
  - (* the operation has settled *)
    destruct (loop w) as [|due|r|r due]; try discriminate. injection Hstep as <-.
    unfold settle. destruct (executeFn r (retries r)) as [v|err].
    + eapply (grows_after _ _ _ _ [_]); [| | apply pass_grows];
        try solve [reflexivity | exact I]. repeat constructor.
    + destruct (retryable err r).
      * eexists [_; _]. split; [reflexivity|]. repeat constructor.
      * eapply (grows_after _ _ _ _ [_]); [| | apply pass_grows];
          try solve [reflexivity | exact I]. repeat constructor.
Qed.

(** ** Costs *)



(** ** Statistics *)

Lemma tally_app f l1 l2 : tally f (l1 ++ l2) = tally f l1 + tally f l2.
Proof. induction l1 as [|e l1 IH]; simpl; [reflexivity | rewrite IH; lia]. Qed.

Lemma tally_nonneg f l : 0 <= tally f l.
Proof. induction l as [|e l IH]; simpl; [lia | destruct (f e); lia]. Qed.



(** X3: in every reachable state [totalRequests] is the number of attempts
    made so far (retries included), [throttledRequests] the number of
    throttled events emitted and [failedRequests] the number of promises
    rejected. *)
Theorem statistics_count_effects (w : world) :
  reachable w ->
  totalRequests (stats (rl w)) = tally is_executed (log w)
  /\ throttledRequests (stats (rl w)) = tally is_throttled (log w)
  /\ failedRequests (stats (rl w)) = tally is_reject (log w).
Proof.
  intros Hr. destruct (reachable_Inv2 w Hr) as (_ & (_ & H) & _). exact H.
Qed.

Lemma statistics_count_effects_witness :
  reachable (after_trace refused_submission)
  /\ totalRequests (stats (rl (after_trace refused_submission))) = 4
  /\ failedRequests (stats (rl (after_trace refused_submission))) = 1.
Proof.
  assert (Hr : reachable (after_trace refused_submission)).
  { exists "Mon Nov 02 2026", refused_submission. vm_compute. reflexivity. }
  split; [exact Hr|].
  destruct (statistics_count_effects _ Hr) as (Ht & _ & Hf).
  rewrite Ht, Hf. split; vm_compute; reflexivity.
Defined.

(** X4: no callback lowers [totalRequests], [throttledRequests] or
    [failedRequests]: from a reachable state each of them only grows. *)
Theorem statistics_monotone (w : world) t e w' :
  reachable w -> step w t e = Some w' ->
  totalRequests (stats (rl w)) <= totalRequests (stats (rl w'))
  /\ throttledRequests (stats (rl w)) <= throttledRequests (stats (rl w'))
  /\ failedRequests (stats (rl w)) <= failedRequests (stats (rl w')).
Proof.
  intros Hr Hstep.
  destruct (reachable_Inv2 w Hr) as (HI & (_ & H1 & H2 & H3) & _).
  destruct (reachable_Inv2 w' (reachable_step _ _ _ _ Hr Hstep))
    as (_ & (_ & H1' & H2' & H3') & _).
  destruct (step_may_emit w t e w' (proj1 HI) Hstep) as (new & Hlog & _).
  rewrite H1, H2, H3, H1', H2', H3', Hlog, !tally_app.
  pose proof (tally_nonneg is_executed new).
  pose proof (tally_nonneg is_throttled new).
  pose proof (tally_nonneg is_reject new). lia.
Qed.

Lemma statistics_monotone_witness :
  reachable (init "Mon Nov 02 2026")
  /\ totalRequests (stats (rl (init "Mon Nov 02 2026")))
     <= totalRequests (stats (rl (after_trace [(0, QueueRequest "eth_call" succeeds)]))).
Proof.
  assert (Hr : reachable (init "Mon Nov 02 2026"))
    by (exists "Mon Nov 02 2026", []; reflexivity).
  split; [exact Hr|].
  refine (proj1 (statistics_monotone _ 0 (QueueRequest "eth_call" succeeds) _ Hr _)).
  vm_compute. reflexivity.
Defined.

(** X5: every retry announced in a reachable state is the first, second or
    third of its request, with a backoff of 2000, 4000 or 8000 ms. *)
Theorem announced_backoffs (w : world) name k ms :
  reachable w -> In (Retry name k ms) (log w) ->
  (k = 1%nat /\ ms = 2000) \/ (k = 2%nat /\ ms = 4000) \/ (k = 3%nat /\ ms = 8000).
Proof.
  intros Hr Hin. destruct (reachable_Inv2 w Hr) as (_ & _ & _ & Hl).
  rewrite Forall_forall in Hl. apply list_elem_of_In in Hin.
  destruct (Hl _ Hin) as [Hk ->].
  assert (k = 1 \/ k = 2 \/ k = 3)%nat as [ -> | [ -> | -> ] ] by lia; auto.
Qed.

Lemma announced_backoffs_witness :
  reachable (after_trace refused_submission)
  /\ In (Retry "eth_sendRawTransaction" 3 8000) (log (after_trace refused_submission)).
Proof.
  assert (Hr : reachable (after_trace refused_submission)).
  { exists "Mon Nov 02 2026", refused_submission. vm_compute. reflexivity. }
  assert (Hin : In (Retry "eth_sendRawTransaction" 3 8000)
                  (log (after_trace refused_submission)))
    by (vm_compute; tauto).
  split; [exact Hr|].
  destruct (announced_backoffs _ _ _ _ Hr Hin) as [[_ _]|[[_ _]|[_ _]]]; exact Hin.
Defined.

(** X6: every entry the limiter holds in a reachable state, in the queue or
    in the hands of the loop, allows three retries, has used at most three,
    and belongs to a promise that [queueRequest] has handed out; an entry
    that waits its backoff has been retried at least once. *)
Theorem held_entries (w : world) :
  reachable w ->
  Forall (fun r => maxRetries r = 3%nat /\ (retries r <= 3)%nat
                   /\ (promise r < nextPromise w)%nat) (queue (rl w))
  /\ (forall r, loop w = Executing r ->
        maxRetries r = 3%nat /\ (retries r <= 3)%nat
        /\ (promise r < nextPromise w)%nat)
  /\ (forall r due, loop w = BackoffDelay r due ->
        maxRetries r = 3%nat /\ (1 <= retries r <= 3)%nat
        /\ (promise r < nextPromise w)%nat).
Proof.
  intros Hr. destruct (reachable_Inv2 w Hr) as (_ & _ & (Hq & Hloop) & _).
  split; [exact Hq|]. split.
  - intros r H. rewrite H in Hloop. exact Hloop.
  - intros r due H. rewrite H in Hloop. unfold good in Hloop. lia.
Qed.

Lemma held_entries_witness :
  reachable awaiting_revert
  /\ forall r, loop awaiting_revert = Executing r -> maxRetries r = 3%nat.
Proof.
  assert (Hr : reachable awaiting_revert).
  { exists "Mon Nov 02 2026", [ (0, QueueRequest "eth_call" (fun _ => Rejected reverted)) ].
    vm_compute. reflexivity. }
  split; [exact Hr|].
  intros r H. exact (proj1 (proj1 (proj2 (held_entries _ Hr)) r H)).
Defined.



(** ** The callbacks one by one *)

(** X8: a call of [queueRequest] while the loop is running only puts the
    new entry at the back of the queue, with no retries used and three
    allowed: no second loop starts, nothing is executed, emitted or settled,
    and the counters and statistics stay as they are. *)
Theorem queueRequest_while_busy (w : world) t name f :
  processing (rl w) = true -> clock w <= t ->
  exists w',
    step w t (QueueRequest name f) = Some w'
    /\ queue (rl w') = queue (rl w) ++ [new_entry name f (nextPromise w)]
    /\ nextPromise w' = S (nextPromise w)
    /\ loop w' = loop w /\ log w' = log w
    /\ processing (rl w') = true
    /\ secondlyCredits (rl w') = secondlyCredits (rl w)
    /\ dailyCredits (rl w') = dailyCredits (rl w)
    /\ stats (rl w') = stats (rl w).
Proof.
  intros Hp Ht. unfold step.
  destruct (Z.ltb_spec t (clock w)); [lia|].
  unfold queueRequest, processQueue. open_world w. simpl in *. subst. simpl.
  eexists. split; [reflexivity|]. simpl. repeat split.
Qed.

Lemma queueRequest_while_busy_witness :
  processing (rl awaiting_revert) = true
  /\ exists w',
       step awaiting_revert 3 (QueueRequest "eth_gasPrice" succeeds) = Some w'
       /\ log w' = log awaiting_revert.
Proof.
  assert (Hp : processing (rl awaiting_revert) = true) by (vm_compute; reflexivity).
  split; [exact Hp|].
  destruct (queueRequest_while_busy awaiting_revert 3 "eth_gasPrice" succeeds Hp)
    as (w' & Hstep & _ & _ & _ & Hlog & _).
  - vm_compute. discriminate.
  - exists w'. split; assumption.
Defined.



(** X10: in a reachable state the callback of the one-second timer sets the
    per-second counter to zero and notes the time, and does nothing else: its
    call of [processQueue] never starts an operation, so a head that waits
    for admission is looked at again only when its own delay has elapsed. *)
Theorem second_timer_only_resets (w : world) t w' :
  reachable w -> step w t SecondTimer = Some w' ->
  secondlyCredits (rl w') = 0
  /\ lastResetSecond (rl w') = t
  /\ dailyCredits (rl w') = dailyCredits (rl w)
  /\ queue (rl w') = queue (rl w)
  /\ processing (rl w') = processing (rl w)
  /\ stats (rl w') = stats (rl w)
  /\ loop w' = loop w
  /\ log w' = SecondReset t :: log w.
Proof.
  intros Hr Hstep. destruct (reachable_Inv w Hr) as (Hs & _).
  unfold step in Hstep. destruct (t <? clock w); [discriminate|].
  simpl in Hstep. destruct (t <? secondDue w); [discriminate|].
  injection Hstep as <-. unfold secondTick, processQueue.
  assert (processing (rl w) || (length (queue (rl w)) =? 0)%nat = true) as Hidle.
  { unfold shape in Hs. destruct (processing (rl w)) eqn:Hp; [reflexivity|].
    destruct (loop w); try (destruct Hs; congruence); try congruence.
    destruct Hs as [_ ->]. reflexivity. }
  open_world w. simpl in *. rewrite Hidle. simpl. repeat split.
Qed.

Lemma second_timer_only_resets_witness :
  reachable (after_trace (burst 0 20))
  /\ secondlyCredits (rl (after_trace (burst 0 20))) = 400
  /\ secondlyCredits (rl (after_trace (burst 0 20 ++ [(1000, SecondTimer)]))) = 0.
Proof.
  assert (Hr : reachable (after_trace (burst 0 20))).
  { exists "Mon Nov 02 2026", (burst 0 20). vm_compute. reflexivity. }
  split; [exact Hr|]. split; [vm_compute; reflexivity|].
  refine (proj1 (second_timer_only_resets _ 1000 _ Hr _)).
  vm_compute. reflexivity.
Defined.

(** X11: the callback of the one-minute timer changes the object only when
    the date differs from the stored one: then the daily counter and
    [dailyCreditsUsed] become zero and the date is stored; on the same date
    the object is left untouched.  In both cases the per-second counter, the
    queue, the other statistics and the loop stay as they are. *)
Theorem day_timer_resets_on_new_date (w : world) t today w' :
  step w t (DayTimer today) = Some w' ->
  (today = lastResetDay (rl w) -> rl w' = rl w /\ log w' = log w)
  /\ (today <> lastResetDay (rl w) ->
      dailyCredits (rl w') = 0 /\ dailyCreditsUsed (stats (rl w')) = 0
      /\ lastResetDay (rl w') = today /\ log w' = DayReset t :: log w)
  /\ secondlyCredits (rl w') = secondlyCredits (rl w)
  /\ queue (rl w') = queue (rl w)
  /\ processing (rl w') = processing (rl w)
  /\ totalRequests (stats (rl w')) = totalRequests (stats (rl w))
  /\ throttledRequests (stats (rl w')) = throttledRequests (stats (rl w))
  /\ failedRequests (stats (rl w')) = failedRequests (stats (rl w))
  /\ loop w' = loop w.
Proof.
  intros Hstep. unfold step in Hstep. destruct (t <? clock w); [discriminate|].
  simpl in Hstep. destruct (t <? dayDue w); [discriminate|].
  injection Hstep as <-. unfold dayTick. simpl.
  destruct (bool_decide_reflect (today <> lastResetDay (rl w))) as [Hne|Heq].
  - open_world w. simpl in *. repeat split; congruence.
  - assert (today = lastResetDay (rl w)) by (destruct (decide (today = lastResetDay (rl w))); tauto).
    open_world w. simpl in *. repeat split; congruence.
Qed.

Lemma day_timer_resets_on_new_date_witness :
  step (after_trace (burst 0 20)) 60000 (DayTimer "Tue Nov 03 2026")
  = Some (after_trace (burst 0 20 ++ [(60000, DayTimer "Tue Nov 03 2026")]))
  /\ dailyCredits (rl (after_trace (burst 0 20))) = 400
  /\ dailyCredits
       (rl (after_trace (burst 0 20 ++ [(60000, DayTimer "Tue Nov 03 2026")]))) = 0.
Proof.
  assert (Hstep : step (after_trace (burst 0 20)) 60000 (DayTimer "Tue Nov 03 2026")
    = Some (after_trace (burst 0 20 ++ [(60000, DayTimer "Tue Nov 03 2026")])))
    by (vm_compute; reflexivity).
  split; [exact Hstep|]. split; [vm_compute; reflexivity|].
  apply (proj1 (proj2 (day_timer_resets_on_new_date _ _ _ _ Hstep))).
  vm_compute. discriminate.
Defined.









(** ** Order and settlement of all submissions *)


Lemma rest_plan_started f id k left :
  omap first_attempt (rest_plan f id k left) = [].
Proof.
  revert k. induction left as [|left IH]; intros k; simpl;
    destruct (f k) as [v|e]; try reflexivity;
    destruct (is429 (code e)); try reflexivity.
  simpl. apply IH.
Qed.

Lemma settlements_app id l1 l2 :
  settlements id (l1 ++ l2) = (settlements id l1 + settlements id l2)%nat.
Proof. induction l1 as [|m l1 IH]; simpl; [reflexivity | rewrite IH; lia]. Qed.

Lemma rest_plan_settlements f id k left id' :
  settlements id' (rest_plan f id k left) = if Nat.eqb id' id then 1%nat else 0%nat.
Proof.
  revert k. induction left as [|left IH]; intros k; simpl;
    destruct (f k) as [v|e]; simpl; try (destruct (Nat.eqb id' id); reflexivity);
    destruct (is429 (code e)); simpl; try (destruct (Nat.eqb id' id); reflexivity).
  apply IH.
Qed.


Lemma plan_started name f id :
  omap first_attempt (plan_of (new_entry name f id)) = [id].
Proof.
  change (plan_of (new_entry name f id)) with (Ran id 0 :: rest_plan f id 0 3).
  change (omap first_attempt (Ran id 0 :: rest_plan f id 0 3))
    with (id :: omap first_attempt (rest_plan f id 0 3)).
  rewrite rest_plan_started. reflexivity.
Qed.

Lemma plan_settlements name f id id' :
  settlements id' (plan_of (new_entry name f id))
  = if Nat.eqb id' id then 1%nat else 0%nat.
Proof.
  change (plan_of (new_entry name f id)) with (Ran id 0 :: rest_plan f id 0 3).
  change (settlements id' (Ran id 0 :: rest_plan f id 0 3))
    with (settlements id' (rest_plan f id 0 3)).
  apply rest_plan_settlements.
Qed.

Lemma plans_started trace : forall next,
  omap first_attempt (flat_map plan_of (submissions next trace))
  = seq next (length (submissions next trace)).
Proof.
  induction trace as [|[t e] trace IH]; intros next; [reflexivity|].
  destruct e; try apply IH.
  cbn [submissions flat_map length seq].
  rewrite omap_app, plan_started, IH. reflexivity.
Qed.

Lemma plans_settlements trace : forall next id,
  settlements id (flat_map plan_of (submissions next trace))
  = if (next <=? id)%nat && (id <? next + length (submissions next trace))%nat
    then 1%nat else 0%nat.
Proof.
  induction trace as [|[t e] trace IH]; intros next id.
  - simpl. rewrite Nat.add_0_r.
    destruct (Nat.leb_spec next id), (Nat.ltb_spec id next); simpl; auto; lia.
  - destruct e; try apply IH.
    cbn [submissions flat_map length].
    rewrite settlements_app, plan_settlements, IH.
    destruct (Nat.eqb_spec id next), (Nat.leb_spec (S next) id),
      (Nat.ltb_spec id (S next + length (submissions (S next) trace))),
      (Nat.leb_spec next id),
      (Nat.ltb_spec id (next + S (length (submissions (S next) trace))));
      simpl; lia.
Qed.

Lemma seq_prefix (l1 l2 : list nat) : forall a n,
  l1 ++ l2 = seq a n -> l1 = seq a (length l1).
Proof.
  induction l1 as [|x l1 IH]; intros a n H; [reflexivity|].
  destruct n as [|n]; [discriminate|]. simpl in H. injection H as -> H.
  simpl. f_equal. exact (IH _ _ H).
Qed.



(** X16: operations are started for the first time in the order in which
    they were submitted, none skipped: the promises whose first attempt has
    been made are 0, 1, ..., k-1 in that order, for some k not above the
    number of submissions. *)
Theorem first_attempts_in_order today trace w :
  run (init today) trace = Some w ->
  started (log w) = seq 0 (length (started (log w)))
  /\ (length (started (log w)) <= length (submissions 0 trace))%nat.
Proof.
  intros Hrun. pose proof (execution_plan today trace w Hrun) as Hplan.
  apply (f_equal (omap first_attempt)) in Hplan.
  rewrite omap_app, plans_started in Hplan. fold (started (log w)) in Hplan.
  split.
  - exact (seq_prefix _ _ _ _ Hplan).
  - apply (f_equal (@length nat)) in Hplan.
    rewrite length_app, length_seq in Hplan. lia.
Qed.

Lemma first_attempts_in_order_witness :
  run (init "Mon Nov 02 2026") three_submissions
  = Some (after_trace three_submissions)
  /\ started (log (after_trace three_submissions)) = [0; 1; 2]%nat.
Proof.
  assert (Hrun : run (init "Mon Nov 02 2026") three_submissions
                 = Some (after_trace three_submissions))
    by (vm_compute; reflexivity).
  split; [exact Hrun|].
  rewrite (proj1 (first_attempts_in_order _ _ _ Hrun)).
  vm_compute. reflexivity.
Defined.

(** X17: a promise is settled at most once: in every run the history holds
    at most one resolution or rejection of each promise, and none of a
    promise that was never handed out. *)
Theorem settled_at_most_once today trace w id :
  run (init today) trace = Some w ->
  (settlements id (marks (log w)) <= 1)%nat
  /\ ((length (submissions 0 trace) <= id)%nat ->
      settlements id (marks (log w)) = 0%nat).
Proof.
  intros Hrun. pose proof (execution_plan today trace w Hrun) as Hplan.
  apply (f_equal (settlements id)) in Hplan.
  rewrite settlements_app, plans_settlements in Hplan. simpl in Hplan.
  destruct (Nat.ltb_spec id (length (submissions 0 trace))); lia.
Qed.

Lemma settled_at_most_once_witness :
  run (init "Mon Nov 02 2026") three_submissions
  = Some (after_trace three_submissions)
  /\ (settlements 0 (marks (log (after_trace three_submissions))) <= 1)%nat.
Proof.
  assert (Hrun : run (init "Mon Nov 02 2026") three_submissions
                 = Some (after_trace three_submissions))
    by (vm_compute; reflexivity).
  split; [exact Hrun|].
  exact (proj1 (settled_at_most_once _ _ _ 0%nat Hrun)).
Defined.



(** ** The advised batch size and the batches made with it *)

(** X19: for a positive cost per operation the advised batch size lies
    between 0 and 50, a whole batch costs at most 320 credits (80% of the safe
    per-second budget), the size is at least 1 as long as one operation fits
    into those 320 credits, it is the largest such size below the cap of 50,
    and a dearer operation never gets a larger batch. *)
Theorem batch_size_within_budget (c : Z) :
  0 < c ->
  let b := calculateOptimalBatchSize c in
  0 <= b <= 50
  /\ b * c <= 320
  /\ (c <= 320 -> 1 <= b)
  /\ (b < 50 -> 320 < (b + 1) * c)
  /\ (forall c', c <= c' -> calculateOptimalBatchSize c' <= b).
Proof.
  intros Hc b. subst b. rewrite (batch_size_floor c Hc).
  pose proof (Z.div_pos 320 c ltac:(lia) Hc) as Hq.
  pose proof (Z.mul_div_le 320 c Hc) as Hle.
  pose proof (Z.mul_succ_div_gt 320 c Hc) as Hgt.
  assert (Hfit : c <= 320 -> 1 <= 320 / c)
    by (intros; apply Z.div_le_lower_bound; lia).
  split; [lia|]. split; [nia|]. split; [lia|]. split; [nia|].
  intros c' Hc'. rewrite (batch_size_floor c') by lia.
  pose proof (Z.div_le_compat_l 320 c c' ltac:(lia) ltac:(lia)). lia.
Qed.

Lemma batch_size_within_budget_witness :
  0 < 20
  /\ calculateOptimalBatchSize 20 * 20 <= 320
  /\ calculateOptimalBatchSize 35 <= calculateOptimalBatchSize 20.
Proof.
  split; [lia|].
  destruct (batch_size_within_budget 20 ltac:(lia)) as (_ & H1 & _ & _ & H4).
  split; [exact H1 | apply H4; lia].
Defined.

Lemma chunks_concat {A} (s : nat) : forall m (l : list A),
  (length l <= m * s)%nat ->
  concat (map (fun i => take s (drop (i * s) l)) (seq 0 m)) = l.
Proof.
  induction m as [|m IH]; intros l Hlen.
  - destruct l; [reflexivity | simpl in Hlen; lia].
  - cbn [seq map concat]. rewrite <- seq_shift, map_map.
    change (drop (0 * s) l) with l.
    transitivity (take s l ++ drop s l); [|apply take_drop]. f_equal.
    rewrite <- (IH (drop s l)) by (rewrite length_drop; lia).
    f_equal. apply map_ext. intros i. rewrite drop_drop. reflexivity.
Qed.

Lemma batch_chunk {A} (l : list A) (size : Z) (i : nat) :
  0 < size ->
  batch l (Z.of_nat (length l)) size (Z.of_nat i)
  = take (Z.to_nat size) (drop (i * Z.to_nat size) l).
Proof.
  intros Hs. unfold batch, slice.
  replace (Z.to_nat (Z.of_nat i * size)) with (i * Z.to_nat size)%nat by nia.
  set (d := drop (i * Z.to_nat size) l).
  assert (Hd : length d = (length l - i * Z.to_nat size)%nat)
    by (subst d; apply length_drop).
  destruct (Z.le_gt_cases (Z.of_nat i * size + size) (Z.of_nat (length l))).
  - rewrite Z.min_l by lia. f_equal. lia.
  - rewrite Z.min_r by lia.
    rewrite (take_ge d (Z.to_nat size)) by nia.
    apply take_ge. nia.
Qed.

Lemma ceil_covers (n size : Z) :
  0 <= n -> 0 < size ->
  0 <= numBatches n size
  /\ n <= numBatches n size * size
  /\ (numBatches n size - 1) * size < n.
Proof.
  intros Hn Hs. unfold numBatches.
  pose proof (Z.div_mod (n + size - 1) size ltac:(lia)) as Hdm.
  pose proof (Z.mod_pos_bound (n + size - 1) size Hs) as Hm.
  pose proof (Z.div_pos (n + size - 1) size ltac:(lia) Hs) as Hq.
  repeat split; nia.
Qed.

(** X20: the batches that [testVolume] cuts out of its credentials, for a
    positive batch size and a volume equal to the number of credentials: laid
    end to end they are the credentials, each once and in order; there are
    ceil(volume / batchSize) of them; none is empty and none is longer than
    the batch size. *)
Theorem batches_partition {A} (testCredentials : list A) (size : Z) :
  0 < size ->
  let volume := Z.of_nat (length testCredentials) in
  concat (batches testCredentials volume size) = testCredentials
  /\ Z.of_nat (length (batches testCredentials volume size))
     = numBatches volume size
  /\ Forall (fun b => (0 < length b)%nat /\ Z.of_nat (length b) <= size)
       (batches testCredentials volume size).
Proof.
  intros Hs volume. subst volume. set (n := Z.of_nat (length testCredentials)).
  destruct (ceil_covers n size ltac:(lia) Hs) as (Hq & Hcov & Hlast).
  assert (Heq : batches testCredentials n size
          = map (fun i => take (Z.to_nat size) (drop (i * Z.to_nat size) testCredentials))
              (seq 0 (Z.to_nat (numBatches n size)))).
  { unfold batches. apply map_ext. intros i. apply batch_chunk, Hs. }
  rewrite Heq. split; [|split].
  - apply chunks_concat. subst n. nia.
  - rewrite length_map, length_seq. lia.
  - apply Forall_forall. intros b Hb. apply list_elem_of_In, in_map_iff in Hb.
    destruct Hb as (i & <- & Hi). apply in_seq in Hi.
    rewrite length_take, length_drop. subst n. nia.
Qed.

Lemma batches_partition_witness :
  0 < batchSize getOptimalBatchConfig
  /\ concat (batches (seq 0 40) 40 (batchSize getOptimalBatchConfig)) = seq 0 40
  /\ map (@length nat) (batches (seq 0 40) 40 (batchSize getOptimalBatchConfig))
     = [16; 16; 8]%nat.
Proof.
  assert (Hs : 0 < batchSize getOptimalBatchConfig) by (vm_compute; reflexivity).
  split; [exact Hs|]. split.
  - exact (proj1 (batches_partition (seq 0 40) _ Hs)).
  - vm_compute. reflexivity.
Defined.

(** ** The counters and the log *)



End RateLimiter.
